(** * logerr: the process-wide logging facade (package log, file log/log.go)

    A shallow embedding of the facade's global state (the installed
    logr.Logger, the read/write lock, the package defaults) and of its
    package-level functions, together with the parts of packages kverrors,
    logr and of the LogSink type that the facade calls into. *)

From Stdlib Require Import ZArith Lia.
From stdpp Require Import base strings list relations.

Open Scope Z_scope.

(** ** Values crossing the facade *)

(** Go's [interface{}] values as they appear in key/value lists. *)
Inductive any :=
| AStr (s : string)
| AInt (n : Z)
| ABool (b : bool)
| ANil.

(** [io.Writer] values: [os.Stdout], [os.Stderr] and any other destination. *)
Inductive Writer :=
| Stdout
| Stderr
| Buffer (id : nat).

(** Encoders: the package's [JSONEncoder{}] and any substituted one. *)
Inductive Encoder :=
| JSONEncoder
| OtherEncoder (id : nat).

(** Pointers to heap objects: the index of the object in the heap. A
    pointer that indexes no object stands for a nil pointer. *)
Abbreviation loc := nat.

(** The static Go types that [fmt.Sprintf("%T", _)] is applied to in log.go. *)
Inductive GoType :=
| TLogrLogger
| TLogSinkPtr.

(** [fmt.Sprintf("%T", x)] for [x] of the given type. *)
Definition Sprintf_T (t : GoType) : string :=
  match t with
  | TLogrLogger => "logr.Logger"
  | TLogSinkPtr => "*log.LogSink"
  end.

(** ** Package kverrors *)

Module kverrors.

(** Modelled from the spec: package kverrors is not among the sources.
    A structured error holds a message, an ordered list of key/value
    pairs and an optional wrapped cause; [Opaque] stands for any other
    error value and [Malformed] for the construction error of a field
    list that does not split into pairs. *)
#[warnings="-register-all"]
Inductive error :=
| KVError (msg : string) (kv : list (string * any)) (cause : option error)
| Opaque (msg : string)
| Malformed (fields : list any).

(** Modelled from the spec: the human-readable message of an error. *)
Definition message (e : error) : string :=
  match e with
  | KVError m _ _ => m
  | Opaque m => m
  | Malformed _ => "malformed key/value pairs"
  end.

(** Modelled from the spec: a flat field list is read as (key, value)
    pairs with string keys; an odd count is a construction error. *)
Fixpoint pairs (fields : list any) : option (list (string * any)) :=
  match fields with
  | [] => Some []
  | AStr k :: v :: rest =>
      match pairs rest with
      | Some kv => Some ((k, v) :: kv)
      | None => None
      end
  | _ => None
  end.

(** Modelled from the spec: [New(message)] is the base case, no fields,
    no cause. *)
Definition New (msg : string) : error := KVError msg [] None.

(** Modelled from the spec: [Add(err, fields...)] wraps [err] as cause and
    attaches the fields; the top-level message stays that of [err]. *)
Definition Add (err : error) (fields : list any) : error :=
  match pairs fields with
  | Some kv => KVError (message err) kv (Some err)
  | None => Malformed fields
  end.

(** Modelled from the spec: [Unwrap] returns the immediate cause. *)
Definition Unwrap (e : error) : option error :=
  match e with
  | KVError _ _ c => c
  | _ => None
  end.

End kverrors.

Abbreviation error := kverrors.error.

(** ** The LogSink type *)

(** Modelled from the spec: type LogSink (log/sink.go) is not among the
    sources. A sink holds its component name, verbosity threshold, output
    destination, base field list and encoder. *)
Record LogSink := mkLogSink {
  name : string;
  verbosity : Z;
  output : Writer;
  fields : list any;
  encoder : Encoder;
}.

Definition set_name (n : string) (s : LogSink) : LogSink :=
  mkLogSink n (verbosity s) (output s) (fields s) (encoder s).
Definition set_verbosity (v : Z) (s : LogSink) : LogSink :=
  mkLogSink (name s) v (output s) (fields s) (encoder s).
Definition set_output (w : Writer) (s : LogSink) : LogSink :=
  mkLogSink (name s) (verbosity s) w (fields s) (encoder s).
Definition set_fields (f : list any) (s : LogSink) : LogSink :=
  mkLogSink (name s) (verbosity s) (output s) f (encoder s).
Definition set_encoder (e : Encoder) (s : LogSink) : LogSink :=
  mkLogSink (name s) (verbosity s) (output s) (fields s) e.

(** Modelled from the spec: [Enabled(level)] returns level <= current
    verbosity threshold. *)
Definition Enabled (s : LogSink) (lvl : Z) : bool := lvl <=? verbosity s.

(** Modelled from the spec: [WithName(segment)] gives name = current name +
    separator + segment; an empty current name yields just the segment. *)
Definition join_name (cur seg : string) : string :=
  if decide (cur = "") then seg else (cur +:+ "." +:+ seg).

(** Modelled from the spec: type Option (log/options.go) is not among the
    sources. An option applies a transformation to the sink before use. *)
Definition Option := LogSink -> LogSink.


(** Modelled from the spec: the option setting the initial verbosity. *)
Definition WithLogLevel (v : Z) : Option := set_verbosity v.

(** Modelled from the spec: the option substituting the encoder. *)
Definition WithEncoder (e : Encoder) : Option := set_encoder e.

(** Modelled from the spec: the log record a sink builds per Info or Error
    call (level or error, logger name, message, base fields, call-site
    fields); the capture time is left out. *)
Inductive LogRecord :=
| InfoRecord (lvl : Z) (logger_name msg : string) (base call : list any)
| ErrorRecord (err : option error) (logger_name msg : string)
    (base call : list any).

(** ** sync.RWMutex *)

(** The state of a [sync.RWMutex] as its callers can tell it apart.
    [writer] is set from the moment a goroutine's [Lock] has announced
    itself until its [Unlock]: that writer holds the lock once no reader
    is inside, and is queued, holding new readers back, while readers
    that were inside before are still leaving. [readers] counts the
    goroutines between [RLock] and [RUnlock]. *)
Record RWMutex := mkRWMutex {
  writer : bool;
  readers : nat;
}.

Definition unlocked : RWMutex := mkRWMutex false 0.

(** ** Sinks other than *LogSink *)

(** What logr needs of a [logr.LogSink] implementation other than
    *LogSink, such as one a caller hands to [UseLogger]. The Info and Error
    records delivered to such a sink are kept in the state. *)
Class ForeignSink (F : Type) := {
  fs_Enabled : F -> Z -> bool;
  fs_WithValues : F -> list any -> F;
  fs_WithName : F -> string -> F;
}.

(** A sink of another package: it accepts levels up to its number and
    ignores names and values. *)
Inductive CountingSink := Counting (upto : Z).

#[global] Instance CountingSink_foreign : ForeignSink CountingSink := {
  fs_Enabled := fun '(Counting n) l => l <=? n;
  fs_WithValues := fun f _ => f;
  fs_WithName := fun f _ => f;
}.

(** ** logr and the facade's state *)

Section log.

Context {F : Type} `{ForeignSink F}.

(** A [logr.LogSink] interface value: the package's *LogSink or another
    implementation. *)
Inductive Sink :=
| SinkLog (p : loc)
| SinkOther (f : F).

(** [logr.Logger]: a sink and the verbosity level accumulated by [V]. *)
Record Logger := mkLogger {
  sink : Sink;
  level : Z;
}.

(** The package-level variables of log.go, the heap of *LogSink objects
    they point into, and what sinks have put out so far (oldest first). *)
Record State := mkState {
  heap : list LogSink;
  written : list (Writer * Encoder * LogRecord);
  delivered : list (F * LogRecord);
  defaultOutput : Writer;
  defautLogLevel : Z;
  mtx : RWMutex;
  logger : Logger;
}.

Definition set_heap (h : list LogSink) (st : State) : State :=
  mkState h (written st) (delivered st) (defaultOutput st)
    (defautLogLevel st) (mtx st) (logger st).
Definition set_written (w : list (Writer * Encoder * LogRecord))
    (st : State) : State :=
  mkState (heap st) w (delivered st) (defaultOutput st)
    (defautLogLevel st) (mtx st) (logger st).
Definition set_delivered (d : list (F * LogRecord)) (st : State) : State :=
  mkState (heap st) (written st) d (defaultOutput st)
    (defautLogLevel st) (mtx st) (logger st).
Definition set_mtx (m : RWMutex) (st : State) : State :=
  mkState (heap st) (written st) (delivered st) (defaultOutput st)
    (defautLogLevel st) m (logger st).
Definition set_logger (l : Logger) (st : State) : State :=
  mkState (heap st) (written st) (delivered st) (defaultOutput st)
    (defautLogLevel st) (mtx st) l.

(** *** Calls: return, panic, or block forever on the lock *)

Inductive Outcome (A : Type) :=
| Ret (a : A) (st : State)
| Panic (st : State)
| Blocked.
Global Arguments Ret {A} a st.
Global Arguments Panic {A} st.
Global Arguments Blocked {A}.

Definition M (A : Type) := State -> Outcome A.

Definition ret {A} (a : A) : M A := fun st => Ret a st.

Definition bind {A B} (m : M A) (k : A -> M B) : M B := fun st =>
  match m st with
  | Ret a st' => k a st'
  | Panic st' => Panic st'
  | Blocked => Blocked
  end.

(** Go's [defer d] at the head of a body: [d] runs when the body returns
    and also when it panics; the result is computed before [d] runs. *)
Definition defer {A} (d : M unit) (body : M A) : M A := fun st =>
  match body st with
  | Ret a st' =>
      match d st' with
      | Ret _ st'' => Ret a st''
      | Panic st'' => Panic st''
      | Blocked => Blocked
      end
  | Panic st' =>
      match d st' with
      | Ret _ st'' => Panic st''
      | Panic st'' => Panic st''
      | Blocked => Blocked
      end
  | Blocked => Blocked
  end.

#[local] Instance M_ret : MRet M := @ret.
#[local] Instance M_bind : MBind M := fun A B k m => bind m k.

(** *** sync.RWMutex operations on [mtx] *)

(** [mtx.Lock()], seen by its caller: it returns once no other writer is
    ahead and no reader is inside, holding the lock. *)
Definition mtx_Lock : M unit := fun st =>
  if writer (mtx st) || negb (Nat.eqb (readers (mtx st)) 0)
  then Blocked
  else Ret tt (set_mtx (mkRWMutex true (readers (mtx st))) st).

(** [mtx.Unlock()]: unlocking a lock that is not write-locked is fatal. *)
Definition mtx_Unlock : M unit := fun st =>
  if writer (mtx st)
  then Ret tt (set_mtx (mkRWMutex false (readers (mtx st))) st)
  else Panic st.

(** [mtx.RLock()] waits as long as a writer holds the lock or is queued
    for it in [Lock]. *)
Definition mtx_RLock : M unit := fun st =>
  if writer (mtx st)
  then Blocked
  else Ret tt (set_mtx (mkRWMutex false (S (readers (mtx st)))) st).

(** [mtx.RUnlock()]: fatal when no reader holds the lock. *)
Definition mtx_RUnlock : M unit := fun st =>
  match readers (mtx st) with
  | O => Panic st
  | S n => Ret tt (set_mtx (mkRWMutex (writer (mtx st)) n) st)
  end.

(** The two phases of [mtx.Lock()] that other goroutines can fall
    between. First the writer announces itself, waiting for any writer
    ahead of it; from then on [RLock] waits. *)
Definition lock_announce : M unit := fun st =>
  if writer (mtx st)
  then Blocked
  else Ret tt (set_mtx (mkRWMutex true (readers (mtx st))) st).

(** Then the announced writer waits for the readers inside to leave. *)
Definition lock_drain : M unit := fun st =>
  if Nat.eqb (readers (mtx st)) 0 then Ret tt st else Blocked.

(** *** The heap of *LogSink objects *)

(** Dereferencing a pointer that refers to no object panics. *)
Definition deref (p : loc) : M LogSink := fun st =>
  match heap st !! p with
  | Some s => Ret s st
  | None => Panic st
  end.

Definition store (p : loc) (s : LogSink) : M unit := fun st =>
  match heap st !! p with
  | Some _ => Ret tt (set_heap (<[p := s]> (heap st)) st)
  | None => Panic st
  end.

(** [&LogSink{...}]: a new object, distinct from every existing one. *)
Definition alloc (s : LogSink) : M loc := fun st =>
  Ret (length (heap st)) (set_heap (heap st ++ [s]) st).

Definition emit (w : Writer) (e : Encoder) (r : LogRecord) : M unit :=
  fun st => Ret tt (set_written (written st ++ [(w, e, r)]) st).

Definition deliver (f : F) (r : LogRecord) : M unit :=
  fun st => Ret tt (set_delivered (delivered st ++ [(f, r)]) st).

(** *** Methods of *LogSink *)

(** Modelled from the spec: [NewLogSink(name, w, v, e, keysAndValues...)]
    (log/sink.go is not among the sources) builds a sink with that
    component name, output, verbosity, encoder and base fields. *)
Definition NewLogSink (n : string) (w : Writer) (v : Z) (e : Encoder)
    (keysAndValues : list any) : M loc :=
  alloc (mkLogSink n v w keysAndValues e).

(** Modelled from the spec: [Enabled] has no side effects. *)
Definition LogSink_Enabled (ls : loc) (lvl : Z) : M bool :=
  s ← deref ls; mret (Enabled s lvl).

(** Modelled from the spec: [Info] is a no-op when the level is not
    enabled; otherwise it writes one record to the output. *)
Definition LogSink_Info (ls : loc) (lvl : Z) (msg : string)
    (kvs : list any) : M unit :=
  s ← deref ls;
  if Enabled s lvl
  then emit (output s) (encoder s) (InfoRecord lvl (name s) msg (fields s) kvs)
  else mret tt.

(** Modelled from the spec: [Error] is always emitted. *)
Definition LogSink_Error (ls : loc) (err : option error) (msg : string)
    (kvs : list any) : M unit :=
  s ← deref ls;
  emit (output s) (encoder s) (ErrorRecord err (name s) msg (fields s) kvs).

(** Modelled from the spec: [WithName] returns a new sink with the name
    extended and never mutates the receiver. *)
Definition LogSink_WithName (ls : loc) (seg : string) : M loc :=
  s ← deref ls; alloc (set_name (join_name (name s) seg) s).

(** Modelled from the spec: [WithValues] returns a new sink with the
    fields appended and never mutates the receiver. *)
Definition LogSink_WithValues (ls : loc) (kvs : list any) : M loc :=
  s ← deref ls; alloc (set_fields (fields s ++ kvs) s).

(** Modelled from the spec: [SetVerbosity] mutates the sink in place. *)
Definition LogSink_SetVerbosity (ls : loc) (v : Z) : M unit :=
  s ← deref ls; store ls (set_verbosity v s).

(** Modelled from the spec: [SetOutput] mutates the sink in place. *)
Definition LogSink_SetOutput (ls : loc) (w : Writer) : M unit :=
  s ← deref ls; store ls (set_output w s).

(** *** Package logr: [logr.Logger] over a [logr.LogSink]

    github.com/go-logr/logr is an external dependency; its [Logger] is
    modelled after the v1 API that log.go calls ([logr.New], [GetSink]):
    a struct of a sink and a level whose methods dispatch to the sink. *)

(** Go's [int] arithmetic wraps around at 64 bits. *)
Definition wrap64 (z : Z) : Z := (z + 2 ^ 63) mod 2 ^ 64 - 2 ^ 63.

Definition Sink_Enabled (s : Sink) (lvl : Z) : M bool :=
  match s with
  | SinkLog ls => LogSink_Enabled ls lvl
  | SinkOther f => mret (fs_Enabled f lvl)
  end.

Definition Sink_Info (s : Sink) (lvl : Z) (msg : string) (kvs : list any)
    : M unit :=
  match s with
  | SinkLog ls => LogSink_Info ls lvl msg kvs
  | SinkOther f => deliver f (InfoRecord lvl "" msg [] kvs)
  end.

Definition Sink_Error (s : Sink) (err : option error) (msg : string)
    (kvs : list any) : M unit :=
  match s with
  | SinkLog ls => LogSink_Error ls err msg kvs
  | SinkOther f => deliver f (ErrorRecord err "" msg [] kvs)
  end.

Definition Sink_WithValues (s : Sink) (kvs : list any) : M Sink :=
  match s with
  | SinkLog ls => ls' ← LogSink_WithValues ls kvs; mret (SinkLog ls')
  | SinkOther f => mret (SinkOther (fs_WithValues f kvs))
  end.

Definition Sink_WithName (s : Sink) (seg : string) : M Sink :=
  match s with
  | SinkLog ls => ls' ← LogSink_WithName ls seg; mret (SinkLog ls')
  | SinkOther f => mret (SinkOther (fs_WithName f seg))
  end.

(** [logr.New(sink)]: a logger at level 0 over the sink. *)
Definition logr_New (s : Sink) : Logger := mkLogger s 0.

(** [l.GetSink()]. *)
Definition GetSink (l : Logger) : Sink := sink l.

(** [l.V(level)]: negative levels count as 0; levels add up. *)
Definition Logger_V (l : Logger) (n : Z) : Logger :=
  let n := if n <? 0 then 0 else n in
  mkLogger (sink l) (wrap64 (level l + n)).

(** [l.Enabled()]. *)
Definition Logger_Enabled (l : Logger) : M bool :=
  Sink_Enabled (sink l) (level l).

(** [l.Info(msg, keysAndValues...)]: handed to the sink when enabled. *)
Definition Logger_Info (l : Logger) (msg : string) (kvs : list any)
    : M unit :=
  b ← Logger_Enabled l;
  if b : bool then Sink_Info (sink l) (level l) msg kvs else mret tt.

(** [l.Error(err, msg, keysAndValues...)]: always handed to the sink. *)
Definition Logger_Error (l : Logger) (err : option error) (msg : string)
    (kvs : list any) : M unit :=
  Sink_Error (sink l) err msg kvs.

(** [l.WithValues(keysAndValues...)]. *)
Definition Logger_WithValues (l : Logger) (kvs : list any) : M Logger :=
  s ← Sink_WithValues (sink l) kvs; mret (mkLogger s (level l)).

(** [l.WithName(name)]. *)
Definition Logger_WithName (l : Logger) (n : string) : M Logger :=
  s ← Sink_WithName (sink l) n; mret (mkLogger s (level l)).

(** *** Package log: log.go *)

(** Reading a package-level variable. *)
Definition load {A} (var : State -> A) : M A := fun st => Ret (var st) st.

(** [var ErrUnknownLoggerType = kverrors.New("unknown error type")]. *)
Definition ErrUnknownLoggerType : error := kverrors.New "unknown error type".

(** The package-level variables after package initialisation:
    [defaultOutput = os.Stdout], [defautLogLevel = 0], the zero [mtx] and
    [logger = logr.New(NewLogSink("", os.Stdout, 0, JSONEncoder{}))]. *)
Definition init_state : State :=
  mkState [mkLogSink "" 0 Stdout [] JSONEncoder] [] [] Stdout 0 unlocked
    (logr_New (SinkLog 0%nat)).

(** [useLogger] sets the logger to [l] without [mtx.Lock()]. *)
Definition useLogger (l : Logger) : M unit :=
  fun st => Ret tt (set_logger l st).

(** [for _, opt := range opts { opt(ls) }]. *)
Fixpoint apply_opts (opts : list Option) (ls : loc) : M unit :=
  match opts with
  | [] => mret tt
  | opt :: rest =>
      (s ← deref ls; store ls (opt s)) ;;
      apply_opts rest ls
  end.

Definition InitWithOptions (component : string) (opts : list Option)
    (keyValuePairs : list any) : M unit :=
  mtx_Lock ;;
  defer mtx_Unlock (
    w ← load defaultOutput;
    ls ← NewLogSink component w 0 JSONEncoder keyValuePairs;
    apply_opts opts ls ;;
    let ll := logr_New (SinkLog ls) in
    useLogger ll).

Definition Init (component : string) (keyValuePairs : list any) : M unit :=
  InitWithOptions component [] keyValuePairs.

Definition MustInit (component : string) (keyValuePairs : list any)
    : M unit :=
  Init component keyValuePairs.

Definition MustInitWithOptions (component : string) (opts : list Option)
    (keyValuePairs : list any) : M unit :=
  InitWithOptions component opts keyValuePairs.

Definition GetLogger : M Logger := load logger.

Definition UseLogger (l : Logger) : M unit :=
  mtx_Lock ;;
  defer mtx_Unlock (useLogger l).

Definition V (lvl : Z) : M Logger :=
  mtx_RLock ;;
  defer mtx_RUnlock (
    l ← load logger;
    mret (Logger_V l lvl)).

Definition Info (msg : string) (keysAndValues : list any) : M unit :=
  mtx_RLock ;;
  defer mtx_RUnlock (
    l ← load logger;
    Logger_Info l msg keysAndValues).

Definition Error (err : option error) (msg : string)
    (keysAndValues : list any) : M unit :=
  mtx_RLock ;;
  defer mtx_RUnlock (
    l ← load logger;
    Logger_Error l err msg keysAndValues).

Definition WithValues (keysAndValues : list any) : M Logger :=
  mtx_RLock ;;
  defer mtx_RUnlock (
    l ← load logger;
    Logger_WithValues l keysAndValues).

Definition WithName (n : string) : M Logger :=
  mtx_RLock ;;
  defer mtx_RUnlock (
    l ← load logger;
    Logger_WithName l n).

Definition SetLogLevel (v : Z) : M (option error) :=
  mtx_Lock ;;
  defer mtx_Unlock (
    l ← load logger;
    match GetSink l with
    | SinkLog ls => LogSink_SetVerbosity ls v ;; mret None
    | _ =>
        mret (Some (kverrors.Add ErrUnknownLoggerType
          [AStr "logger_type"; AStr (Sprintf_T TLogrLogger);
           AStr "expected_type"; AStr (Sprintf_T TLogSinkPtr)]))
    end).

Definition SetOutput (w : Writer) : M (option error) :=
  mtx_RLock ;;
  defer mtx_RUnlock (
    l ← load logger;
    match GetSink l with
    | SinkLog ls => LogSink_SetOutput ls w ;; mret None
    | _ =>
        mret (Some (kverrors.Add ErrUnknownLoggerType
          [AStr "logger_type"; AStr (Sprintf_T TLogrLogger);
           AStr "expected_type"; AStr (Sprintf_T TLogSinkPtr)]))
    end).

(** The "unknown logger type" error: [ErrUnknownLoggerType] enriched with
    the pairs [logger_type] and [expected_type]. *)
Definition unknown_logger_error : error :=
  kverrors.Add ErrUnknownLoggerType
    [AStr "logger_type"; AStr "logr.Logger";
     AStr "expected_type"; AStr "*log.LogSink"].

(** The sink object behind the installed logger, when it is a live
    *LogSink. *)
Definition installed_sink (st : State) : option LogSink :=
  match GetSink (logger st) with
  | SinkLog p => heap st !! p
  | SinkOther _ => None
  end.

(** *** Calls into the facade, as a program issues them *)

Inductive Call :=
| CInit (component : string) (kvs : list any)
| CMustInit (component : string) (kvs : list any)
| CInitWithOptions (component : string) (opts : list Option)
    (kvs : list any)
| CMustInitWithOptions (component : string) (opts : list Option)
    (kvs : list any)
| CGetLogger
| CUseLogger (l : Logger)
| CV (lvl : Z)
| CInfo (msg : string) (kvs : list any)
| CError (err : option error) (msg : string) (kvs : list any)
| CWithValues (kvs : list any)
| CWithName (n : string)
| CSetLogLevel (v : Z)
| CSetOutput (w : Writer).

Inductive Result :=
| RUnit
| RLogger (l : Logger)
| RError (e : option error).

Definition run (c : Call) : M Result :=
  match c with
  | CInit n kvs => Init n kvs ;; mret RUnit
  | CMustInit n kvs => MustInit n kvs ;; mret RUnit
  | CInitWithOptions n opts kvs => InitWithOptions n opts kvs ;; mret RUnit
  | CMustInitWithOptions n opts kvs =>
      MustInitWithOptions n opts kvs ;; mret RUnit
  | CGetLogger => l ← GetLogger; mret (RLogger l)
  | CUseLogger l => UseLogger l ;; mret RUnit
  | CV lvl => l ← V lvl; mret (RLogger l)
  | CInfo msg kvs => Info msg kvs ;; mret RUnit
  | CError err msg kvs => Error err msg kvs ;; mret RUnit
  | CWithValues kvs => l ← WithValues kvs; mret (RLogger l)
  | CWithName n => l ← WithName n; mret (RLogger l)
  | CSetLogLevel v => e ← SetLogLevel v; mret (RError e)
  | CSetOutput w => e ← SetOutput w; mret (RError e)
  end.

(** The state a call leaves behind, when it returns or panics (the
    deferred unlock has run in both cases); nothing when it blocks. *)
Definition after {A} (o : Outcome A) : option State :=
  match o with
  | Ret _ st => Some st
  | Panic st => Some st
  | Blocked => None
  end.

(** A program issuing calls one after the other, each of them returning. *)
Fixpoint run_all (cs : list Call) (st : State) : option State :=
  match cs with
  | [] => Some st
  | c :: rest =>
      match run c st with
      | Ret _ st' => run_all rest st'
      | _ => None
      end
  end.

(** The calls that install a logger. *)
Definition is_setup (c : Call) : bool :=
  match c with
  | CInit _ _ | CMustInit _ _ => true
  | CInitWithOptions _ _ _ | CMustInitWithOptions _ _ _ => true
  | CUseLogger _ => true
  | _ => false
  end.

(** *** Calls running side by side *)

(** How a call guards its body with [mtx]: [Lock]/[Unlock],
    [RLock]/[RUnlock], or not at all. *)
Inductive Guard :=
| Exclusive
| Shared
| Unguarded.

#[global] Instance Guard_eq_dec : EqDecision Guard.
Proof. solve_decision. Defined.

Definition acquire (g : Guard) : M unit :=
  match g with
  | Exclusive => mtx_Lock
  | Shared => mtx_RLock
  | Unguarded => mret tt
  end.

Definition release (g : Guard) : M unit :=
  match g with
  | Exclusive => mtx_Unlock
  | Shared => mtx_RUnlock
  | Unguarded => mret tt
  end.

(** The lock operations each function of log.go opens with. *)
Definition guard_of (c : Call) : Guard :=
  match c with
  | CInit _ _ | CMustInit _ _ => Exclusive
  | CInitWithOptions _ _ _ | CMustInitWithOptions _ _ _ => Exclusive
  | CGetLogger => Unguarded
  | CUseLogger _ => Exclusive
  | CV _ | CInfo _ _ | CError _ _ _ | CWithValues _ | CWithName _ => Shared
  | CSetLogLevel _ => Exclusive
  | CSetOutput _ => Shared
  end.

Definition init_body (component : string) (opts : list Option)
    (kvs : list any) : M Result :=
  w ← load defaultOutput;
  ls ← NewLogSink component w 0 JSONEncoder kvs;
  apply_opts opts ls ;;
  useLogger (logr_New (SinkLog ls)) ;;
  mret RUnit.

(** What each function does between taking and releasing the lock. *)
Definition body_of (c : Call) : M Result :=
  match c with
  | CInit n kvs | CMustInit n kvs => init_body n [] kvs
  | CInitWithOptions n opts kvs | CMustInitWithOptions n opts kvs =>
      init_body n opts kvs
  | CGetLogger => l ← load logger; mret (RLogger l)
  | CUseLogger l => useLogger l ;; mret RUnit
  | CV lvl => l ← load logger; mret (RLogger (Logger_V l lvl))
  | CInfo msg kvs => l ← load logger; Logger_Info l msg kvs ;; mret RUnit
  | CError err msg kvs =>
      l ← load logger; Logger_Error l err msg kvs ;; mret RUnit
  | CWithValues kvs =>
      l ← load logger; l' ← Logger_WithValues l kvs; mret (RLogger l')
  | CWithName n =>
      l ← load logger; l' ← Logger_WithName l n; mret (RLogger l')
  | CSetLogLevel v =>
      l ← load logger;
      match GetSink l with
      | SinkLog ls => LogSink_SetVerbosity ls v ;; mret (RError None)
      | _ => mret (RError (Some unknown_logger_error))
      end
  | CSetOutput w =>
      l ← load logger;
      match GetSink l with
      | SinkLog ls => LogSink_SetOutput ls w ;; mret (RError None)
      | _ => mret (RError (Some unknown_logger_error))
      end
  end.

(** The number of calls in [cs] that guard themselves with [g]. *)
Fixpoint holders (g : Guard) (cs : list Call) : nat :=
  match cs with
  | [] => O
  | c :: rest =>
      if decide (guard_of c = g) then S (holders g rest)
      else holders g rest
  end.

(** Goroutines calling into the facade: those that have not yet taken
    the lock, those between taking and releasing it, those that are
    through. A call takes the lock in one step ([pool_enter]), or, when
    it opens with [mtx.Lock()], in two: it announces itself while readers
    are still inside ([pool_announce]: it is then queued, and [writer] is
    set with no writing call inside), and a queued writer goes in once the
    readers have left ([pool_admit]). Which of the waiting writers is the
    queued one is not recorded: they are all stopped in [Lock]. *)
Record Pool := mkPool {
  shared : State;
  waiting : list Call;
  inside : list Call;
  finished : list Call;
}.

Inductive pool_step : Pool -> Pool -> Prop :=
| pool_enter st st' c w1 w2 ins fin :
    acquire (guard_of c) st = Ret tt st' ->
    pool_step (mkPool st (w1 ++ c :: w2) ins fin)
              (mkPool st' (w1 ++ w2) (c :: ins) fin)
| pool_leave st st' c w i1 i2 fin :
    after (defer (release (guard_of c)) (body_of c) st) = Some st' ->
    pool_step (mkPool st w (i1 ++ c :: i2) fin)
              (mkPool st' w (i1 ++ i2) (c :: fin))
| pool_announce st st' c w1 w2 ins fin :
    guard_of c = Exclusive ->
    lock_announce st = Ret tt st' ->
    pool_step (mkPool st (w1 ++ c :: w2) ins fin)
              (mkPool st' (w1 ++ c :: w2) ins fin)
| pool_admit st st' c w1 w2 ins fin :
    guard_of c = Exclusive ->
    writer (mtx st) = true ->
    holders Exclusive ins = O ->
    lock_drain st = Ret tt st' ->
    pool_step (mkPool st (w1 ++ c :: w2) ins fin)
              (mkPool st' (w1 ++ w2) (c :: ins) fin).

(** The lock's fields count the calls inside: [readers] the read-locked
    ones; and [writer] is set when one write-locked call is inside, alone
    among the lock-taking calls, or when none is inside and one of the
    waiting ones is queued. *)
Definition lock_inv (P : Pool) : Prop :=
  readers (mtx (shared P)) = holders Shared (inside P) /\
  (if writer (mtx (shared P))
   then (holders Exclusive (inside P) = 1%nat /\
         holders Shared (inside P) = O) \/
        (holders Exclusive (inside P) = O /\
         holders Exclusive (waiting P) <> O)
   else holders Exclusive (inside P) = O).

(** How far a pool is from having all its calls through. *)
Definition pool_measure (P : Pool) : nat :=
  (4 * length (waiting P) + 2 * length (inside P) +
   (if writer (mtx (shared P)) then 0 else 1))%nat.

(** Mapping the state a call leaves behind. *)
Definition on_state {A} (f : State -> State) (o : Outcome A) : Outcome A :=
  match o with
  | Ret a st => Ret a (f st)
  | Panic st => Panic (f st)
  | Blocked => Blocked
  end.

(** A computation that neither reads nor writes [mtx]. *)
Definition lock_free {A} (m : M A) : Prop :=
  forall st mt, m (set_mtx mt st) = on_state (set_mtx mt) (m st).

(** A computation that leaves the part [f] of the state as it found it,
    whether it returns or panics. *)
Definition preserves {A B} (f : State -> A) (m : M B) : Prop :=
  forall st,
    match m st with
    | Ret _ st' => f st' = f st
    | Panic st' => f st' = f st
    | Blocked => True
    end.

(** The logger of package initialisation is still installed: [logger]
    is [logr.New] of the first sink object, which still has the empty
    component name, no base fields and the JSON encoder, and nobody holds
    the lock. *)
Definition default_logger_ready (st : State) : Prop :=
  mtx st = unlocked /\
  logger st = logr_New (SinkLog 0%nat) /\
  exists s, heap st !! 0%nat = Some s /\
    name s = "" /\ fields s = [] /\ encoder s = JSONEncoder.

(** An option that leaves the part [g] of the sink alone. *)
Definition keeps {A} (g : LogSink -> A) (opt : Option) : Prop :=
  forall s, g (opt s) = g s.

(** Whether the lock lets a call with guard [g] in. *)
Definition admits (m : RWMutex) (g : Guard) : bool :=
  match g with
  | Exclusive => negb (writer m) && Nat.eqb (readers m) 0
  | Shared => negb (writer m)
  | Unguarded => true
  end.

(** A computation that never waits for the lock. *)
Definition nonblocking {A} (m : M A) : Prop := forall st, m st <> Blocked.


(** ** Properties *)

(** *** The state record and the monad *)

Lemma set_mtx_same st : set_mtx (mtx st) st = st.
Proof. by destruct st. Qed.

Lemma set_mtx_twice m1 m2 st : set_mtx m2 (set_mtx m1 st) = set_mtx m2 st.
Proof. by destruct st. Qed.

Lemma bind_eq {A B} (m : M A) (k : A -> M B) st :
  (m ≫= k) st =
  match m st with
  | Ret a st' => k a st'
  | Panic st' => Panic st'
  | Blocked => Blocked
  end.
Proof. reflexivity. Qed.

Lemma lock_free_ret {A} (a : A) : lock_free (mret a).
Proof. by intros st mt. Qed.

Lemma lock_free_bind {A B} (m : M A) (k : A -> M B) :
  lock_free m -> (forall a, lock_free (k a)) -> lock_free (m ≫= k).
Proof.
  intros Hm Hk st mt. rewrite !bind_eq, Hm.
  destruct (m st) as [a st'| |]; simpl; auto. apply Hk.
Qed.

Lemma lock_free_deref p : lock_free (deref p).
Proof. intros st mt. unfold deref. simpl. by destruct (heap st !! p). Qed.

Lemma lock_free_store p s : lock_free (store p s).
Proof. intros st mt. unfold store. simpl. by destruct (heap st !! p). Qed.

Lemma lock_free_alloc s : lock_free (alloc s).
Proof. by intros st mt. Qed.

Lemma lock_free_emit w e r : lock_free (emit w e r).
Proof. by intros st mt. Qed.

Lemma lock_free_deliver f r : lock_free (deliver f r).
Proof. by intros st mt. Qed.

Lemma lock_free_useLogger l : lock_free (useLogger l).
Proof. by intros st mt. Qed.

Lemma lock_free_load_logger : lock_free (load logger).
Proof. by intros st mt. Qed.

Lemma lock_free_load_defaultOutput : lock_free (load defaultOutput).
Proof. by intros st mt. Qed.

Lemma lock_free_if {A} (b : bool) (m1 m2 : M A) :
  lock_free m1 -> lock_free m2 -> lock_free (if b then m1 else m2).
Proof. by destruct b. Qed.

Create HintDb lock_free.
#[local] Hint Resolve lock_free_ret lock_free_bind lock_free_deref
  lock_free_store lock_free_alloc lock_free_emit lock_free_deliver
  lock_free_useLogger lock_free_load_logger lock_free_load_defaultOutput
  lock_free_if : lock_free.

Ltac lock_free :=
  repeat first
    [ progress intros
    | solve [auto with lock_free]
    | apply lock_free_bind
    | apply lock_free_if
    | match goal with |- lock_free (match ?x with _ => _ end) => destruct x end ].

Lemma lock_free_apply_opts opts ls : lock_free (apply_opts opts ls).
Proof. induction opts; simpl; lock_free. Qed.
#[local] Hint Resolve lock_free_apply_opts : lock_free.

Lemma lock_free_Logger_Info l msg kvs : lock_free (Logger_Info l msg kvs).
Proof.
  unfold Logger_Info, Logger_Enabled, Sink_Enabled, Sink_Info,
    LogSink_Enabled, LogSink_Info.
  lock_free.
Qed.

Lemma lock_free_Logger_Error l err msg kvs :
  lock_free (Logger_Error l err msg kvs).
Proof. unfold Logger_Error, Sink_Error, LogSink_Error. lock_free. Qed.

Lemma lock_free_Logger_WithValues l kvs : lock_free (Logger_WithValues l kvs).
Proof.
  unfold Logger_WithValues, Sink_WithValues, LogSink_WithValues. lock_free.
Qed.

Lemma lock_free_Logger_WithName l n : lock_free (Logger_WithName l n).
Proof. unfold Logger_WithName, Sink_WithName, LogSink_WithName. lock_free. Qed.

Lemma lock_free_SetVerbosity ls v : lock_free (LogSink_SetVerbosity ls v).
Proof. unfold LogSink_SetVerbosity. lock_free. Qed.

Lemma lock_free_SetOutput ls w : lock_free (LogSink_SetOutput ls w).
Proof. unfold LogSink_SetOutput. lock_free. Qed.

#[local] Hint Resolve lock_free_Logger_Info lock_free_Logger_Error
  lock_free_Logger_WithValues lock_free_Logger_WithName
  lock_free_SetVerbosity lock_free_SetOutput : lock_free.

Lemma lock_free_body_of c : lock_free (body_of c).
Proof.
  destruct c; cbn [body_of]; unfold init_body, NewLogSink, GetSink; lock_free.
Qed.

(** A lock-free computation leaves [mtx] as it found it. *)
Lemma lock_free_mtx {A} (m : M A) st :
  lock_free m ->
  match m st with
  | Ret _ st' => mtx st' = mtx st
  | Panic st' => mtx st' = mtx st
  | Blocked => True
  end.
Proof.
  intros Hm. specialize (Hm st (mtx st)). rewrite set_mtx_same in Hm.
  destruct (m st) as [a st'|st'|]; simpl in Hm; auto.
  - injection Hm as Hm. rewrite Hm. by destruct st'.
  - injection Hm as Hm. rewrite Hm. by destruct st'.
Qed.

(** *** Calls guarded by the lock, seen by a lone caller *)

(** With nobody holding the lock, [mtx.Lock(); defer mtx.Unlock(); body]
    does what [body] does. *)
Lemma exclusive_call {A} (body : M A) st :
  lock_free body -> mtx st = unlocked ->
  (mtx_Lock ;; defer mtx_Unlock body) st = body st.
Proof.
  intros Hb Hm. rewrite bind_eq. unfold mtx_Lock. rewrite Hm. simpl.
  unfold defer. rewrite Hb.
  pose proof (lock_free_mtx body st Hb) as Hst.
  destruct (body st) as [a st'|st'|]; simpl; auto;
    unfold mtx_Unlock; simpl; rewrite set_mtx_twice;
    replace (mkRWMutex false 0) with (mtx st') by (by rewrite Hst, Hm);
    by rewrite set_mtx_same.
Qed.

(** With no writer holding the lock or queued for it, [mtx.RLock(); defer
    mtx.RUnlock(); body] does what [body] does. *)
Lemma shared_call {A} (body : M A) st :
  lock_free body -> writer (mtx st) = false ->
  (mtx_RLock ;; defer mtx_RUnlock body) st = body st.
Proof.
  intros Hb Hm. rewrite bind_eq. unfold mtx_RLock. rewrite Hm. simpl.
  unfold defer. rewrite Hb.
  pose proof (lock_free_mtx body st Hb) as Hst.
  destruct (body st) as [a st'|st'|]; simpl; auto;
    unfold mtx_RUnlock; simpl; rewrite set_mtx_twice;
    replace (mkRWMutex false (readers (mtx st))) with (mtx st')
      by (rewrite Hst; destruct (mtx st); simpl in *; congruence);
    by rewrite set_mtx_same.
Qed.

(** A writer waits as long as anybody holds the lock. *)
Lemma exclusive_call_blocks {A} (body : M A) st :
  writer (mtx st) = true \/ readers (mtx st) <> O ->
  (mtx_Lock ;; defer mtx_Unlock body) st = Blocked.
Proof.
  intros Hm. rewrite bind_eq. unfold mtx_Lock.
  destruct (writer (mtx st)); simpl; auto.
  destruct Hm as [Hm|Hm]; [done|].
  destruct (readers (mtx st)); simpl; [done|auto].
Qed.

(** A reader waits as long as a writer holds the lock or is queued. *)
Lemma shared_call_blocks {A} (body : M A) st :
  writer (mtx st) = true ->
  (mtx_RLock ;; defer mtx_RUnlock body) st = Blocked.
Proof. intros Hm. rewrite bind_eq. unfold mtx_RLock. by rewrite Hm. Qed.

(** *** SetLogLevel and SetOutput *)

Lemma unknown_logger_error_eq :
  kverrors.Add ErrUnknownLoggerType
    [AStr "logger_type"; AStr (Sprintf_T TLogrLogger);
     AStr "expected_type"; AStr (Sprintf_T TLogSinkPtr)]
  = unknown_logger_error.
Proof. reflexivity. Qed.

(** The error carries the two pairs in order and wraps
    [ErrUnknownLoggerType], whose message reads "unknown error type". *)
Lemma unknown_logger_error_shape :
  unknown_logger_error =
    kverrors.KVError "unknown error type"
      [("logger_type", AStr "logr.Logger");
       ("expected_type", AStr "*log.LogSink")]
      (Some ErrUnknownLoggerType) /\
  kverrors.Unwrap unknown_logger_error = Some ErrUnknownLoggerType.
Proof. split; reflexivity. Qed.

Lemma SetLogLevel_lone v st :
  mtx st = unlocked ->
  SetLogLevel v st =
  match GetSink (logger st) with
  | SinkLog ls =>
      match heap st !! ls with
      | Some s => Ret None (set_heap (<[ls := set_verbosity v s]> (heap st)) st)
      | None => Panic st
      end
  | SinkOther _ => Ret (Some unknown_logger_error) st
  end.
Proof.
  intros Hm. unfold SetLogLevel. rewrite exclusive_call; [|lock_free|done].
  rewrite bind_eq. simpl.
  destruct (GetSink (logger st)) as [ls|f]; [|done].
  unfold LogSink_SetVerbosity. rewrite !bind_eq. unfold deref, store.
  by destruct (heap st !! ls) eqn:Hls; simpl; rewrite ?Hls.
Qed.

Lemma SetOutput_lone w st :
  writer (mtx st) = false ->
  SetOutput w st =
  match GetSink (logger st) with
  | SinkLog ls =>
      match heap st !! ls with
      | Some s => Ret None (set_heap (<[ls := set_output w s]> (heap st)) st)
      | None => Panic st
      end
  | SinkOther _ => Ret (Some unknown_logger_error) st
  end.
Proof.
  intros Hm. unfold SetOutput. rewrite shared_call; [|lock_free|done].
  rewrite bind_eq. simpl.
  destruct (GetSink (logger st)) as [ls|f]; [|done].
  unfold LogSink_SetOutput. rewrite !bind_eq. unfold deref, store.
  by destruct (heap st !! ls) eqn:Hls; simpl; rewrite ?Hls.
Qed.

(** C1, amended. For every verbosity [v] and writer [w], [SetLogLevel v]
    and [SetOutput w] return an error exactly when the installed logger's
    sink is not a *LogSink; the error is then [ErrUnknownLoggerType]
    enriched with the pairs logger_type and expected_type, and the state
    (the installed logger and every sink) is left as it was; when the sink
    is a *LogSink that points at a sink object, that object is updated in
    place and nil is returned. *)
Theorem setters_fail_exactly_on_foreign_sinks (v : Z) (w : Writer)
    (st : State) :
  mtx st = unlocked ->
  ((exists e st', SetLogLevel v st = Ret (Some e) st') <->
   (forall p, GetSink (logger st) <> SinkLog p)) /\
  ((exists e st', SetOutput w st = Ret (Some e) st') <->
   (forall p, GetSink (logger st) <> SinkLog p)) /\
  ((forall p, GetSink (logger st) <> SinkLog p) ->
   SetLogLevel v st = Ret (Some unknown_logger_error) st /\
   SetOutput w st = Ret (Some unknown_logger_error) st) /\
  (forall p s, GetSink (logger st) = SinkLog p -> heap st !! p = Some s ->
   SetLogLevel v st =
     Ret None (set_heap (<[p := set_verbosity v s]> (heap st)) st) /\
   SetOutput w st =
     Ret None (set_heap (<[p := set_output w s]> (heap st)) st)).
Proof.
  intros Hm.
  assert (Hr : writer (mtx st) = false) by (by rewrite Hm).
  rewrite (SetLogLevel_lone v st Hm), (SetOutput_lone w st Hr).
  destruct (GetSink (logger st)) as [ls|f] eqn:Hs.
  - assert (Hno : ~ (forall p, SinkLog ls <> SinkLog p))
      by (intros Hp; by apply (Hp ls)).
    split; [|split; [|split]].
    + split; [|done]. intros (e & st' & He). by destruct (heap st !! ls).
    + split; [|done]. intros (e & st' & He). by destruct (heap st !! ls).
    + done.
    + intros p s [= <-] Hp. by rewrite Hp.
  - split; [|split; [|split]].
    + split; [done|]. intros _. by exists unknown_logger_error, st.
    + split; [done|]. intros _. by exists unknown_logger_error, st.
    + done.
    + intros p s Hp. discriminate Hp.
Qed.

(** *** Init and InitWithOptions *)

Lemma set_heap_same st : set_heap (heap st) st = st.
Proof. by destruct st. Qed.

Lemma set_heap_twice h1 h2 st : set_heap h2 (set_heap h1 st) = set_heap h2 st.
Proof. by destruct st. Qed.

Lemma insert_last {A} (h : list A) (x y : A) :
  <[length h := y]> (h ++ [x]) = h ++ [y].
Proof. rewrite insert_app_r_alt by lia. by rewrite Nat.sub_diag. Qed.

Lemma lookup_last {A} (h : list A) (x : A) : (h ++ [x]) !! length h = Some x.
Proof. rewrite lookup_app_r by lia. by rewrite Nat.sub_diag. Qed.

(** The loop over the options rewrites the sink object with each option
    in turn, first to last. *)
Lemma apply_opts_live opts : forall ls s st,
  heap st !! ls = Some s ->
  apply_opts opts ls st =
    Ret tt (set_heap (<[ls := foldl (fun s (opt : Option) => opt s) s opts]>
                        (heap st)) st).
Proof.
  induction opts as [|opt opts IH]; intros ls s st Hls; simpl.
  - by rewrite list_insert_id, set_heap_same.
  - rewrite !bind_eq. unfold deref, store. rewrite Hls. simpl. rewrite Hls.
    rewrite (IH ls (opt s)).
    + simpl. by rewrite set_heap_twice, list_insert_insert_eq.
    + simpl. apply list_lookup_insert_eq. by eapply lookup_lt_Some.
Qed.

Lemma init_body_eq component opts kvs st :
  init_body component opts kvs st =
    Ret RUnit
      (set_logger (logr_New (SinkLog (length (heap st))))
         (set_heap
            (heap st ++
             [foldl (fun s (opt : Option) => opt s)
                (mkLogSink component 0 (defaultOutput st) kvs JSONEncoder)
                opts])
            st)).
Proof.
  unfold init_body, NewLogSink. rewrite bind_eq. simpl.
  rewrite bind_eq. unfold alloc at 1. rewrite bind_eq.
  erewrite apply_opts_live.
  - simpl. by rewrite set_heap_twice, insert_last.
  - simpl. apply lookup_last.
Qed.

Lemma InitWithOptions_lone component opts kvs st :
  mtx st = unlocked ->
  InitWithOptions component opts kvs st =
    Ret tt
      (set_logger (logr_New (SinkLog (length (heap st))))
         (set_heap
            (heap st ++
             [foldl (fun s (opt : Option) => opt s)
                (mkLogSink component 0 (defaultOutput st) kvs JSONEncoder)
                opts])
            st)).
Proof.
  intros Hm. unfold InitWithOptions.
  rewrite exclusive_call; [|unfold NewLogSink; lock_free|done].
  unfold NewLogSink. rewrite bind_eq. simpl.
  rewrite bind_eq. unfold alloc at 1. rewrite bind_eq.
  erewrite apply_opts_live.
  - simpl. by rewrite set_heap_twice, insert_last.
  - simpl. apply lookup_last.
Qed.

(** *** What the calls leave alone *)

Section preserves.

Context {A : Type} (f : State -> A).

Lemma preserves_ret {B} (b : B) : preserves f (mret b).
Proof. by intros st. Qed.

Lemma preserves_load {B} (var : State -> B) : preserves f (load var).
Proof. by intros st. Qed.

Lemma preserves_bind {B C} (m : M B) (k : B -> M C) :
  preserves f m -> (forall b, preserves f (k b)) -> preserves f (m ≫= k).
Proof.
  intros Hm Hk st. rewrite bind_eq. specialize (Hm st).
  destruct (m st) as [b st'|st'|]; auto.
  specialize (Hk b st'). destruct (k b st'); congruence.
Qed.

Lemma preserves_defer {B} (d : M unit) (body : M B) :
  preserves f d -> preserves f body -> preserves f (defer d body).
Proof.
  intros Hd Hb st. unfold defer. specialize (Hb st).
  destruct (body st) as [b st'|st'|]; auto;
    specialize (Hd st'); destruct (d st'); congruence.
Qed.

Lemma preserves_if {B} (b : bool) (m1 m2 : M B) :
  preserves f m1 -> preserves f m2 -> preserves f (if b then m1 else m2).
Proof. by destruct b. Qed.

Hypothesis f_heap : forall h st, f (set_heap h st) = f st.
Hypothesis f_written : forall w st, f (set_written w st) = f st.
Hypothesis f_delivered : forall d st, f (set_delivered d st) = f st.
Hypothesis f_mtx : forall m st, f (set_mtx m st) = f st.

Lemma preserves_deref p : preserves f (deref p).
Proof. intros st. unfold deref. by destruct (heap st !! p). Qed.

Lemma preserves_store p s : preserves f (store p s).
Proof. intros st. unfold store. by destruct (heap st !! p). Qed.

Lemma preserves_alloc s : preserves f (alloc s).
Proof. intros st. apply f_heap. Qed.

Lemma preserves_emit w e r : preserves f (emit w e r).
Proof. intros st. apply f_written. Qed.

Lemma preserves_deliver x r : preserves f (deliver x r).
Proof. intros st. apply f_delivered. Qed.

Lemma preserves_Lock : preserves f mtx_Lock.
Proof.
  intros st. unfold mtx_Lock.
  by destruct (writer (mtx st) || negb (Nat.eqb (readers (mtx st)) 0)).
Qed.

Lemma preserves_Unlock : preserves f mtx_Unlock.
Proof. intros st. unfold mtx_Unlock. by destruct (writer (mtx st)). Qed.

Lemma preserves_RLock : preserves f mtx_RLock.
Proof. intros st. unfold mtx_RLock. by destruct (writer (mtx st)). Qed.

Lemma preserves_RUnlock : preserves f mtx_RUnlock.
Proof. intros st. unfold mtx_RUnlock. by destruct (readers (mtx st)). Qed.

End preserves.

Ltac preserves_side := solve [done | auto].

Ltac preserves :=
  repeat first
    [ progress intros
    | match goal with
      | |- preserves _ (mret _) => apply preserves_ret
      | |- preserves _ (load _) => apply preserves_load
      | |- preserves _ (_ ≫= _) => apply preserves_bind
      | |- preserves _ (defer _ _) => apply preserves_defer
      | |- preserves _ (if _ then _ else _) => apply preserves_if
      | |- preserves _ (deref _) => apply preserves_deref
      | |- preserves _ (store _ _) => apply preserves_store; preserves_side
      | |- preserves _ (alloc _) => apply preserves_alloc; preserves_side
      | |- preserves _ (emit _ _ _) => apply preserves_emit; preserves_side
      | |- preserves _ (deliver _ _) =>
          apply preserves_deliver; preserves_side
      | |- preserves _ mtx_Lock => apply preserves_Lock; preserves_side
      | |- preserves _ mtx_Unlock => apply preserves_Unlock; preserves_side
      | |- preserves _ mtx_RLock => apply preserves_RLock; preserves_side
      | |- preserves _ mtx_RUnlock => apply preserves_RUnlock; preserves_side
      | |- preserves _ (match ?x with _ => _ end) => destruct x
      end ].

Ltac unfold_log :=
  unfold MustInit, MustInitWithOptions; unfold Init;
  unfold InitWithOptions, GetLogger,
    UseLogger, V, Info, Error, WithValues, WithName, SetLogLevel, SetOutput,
    NewLogSink, GetSink, Logger_Info, Logger_Enabled, Logger_Error,
    Logger_WithValues, Logger_WithName, Sink_Enabled, Sink_Info, Sink_Error,
    Sink_WithValues, Sink_WithName, LogSink_Enabled, LogSink_Info,
    LogSink_Error, LogSink_WithValues, LogSink_WithName, LogSink_SetVerbosity,
    LogSink_SetOutput.

Lemma preserves_apply_opts {A} (f : State -> A) opts ls :
  (forall h st, f (set_heap h st) = f st) ->
  preserves f (apply_opts opts ls).
Proof. intros Hf. induction opts; simpl; preserves; assumption. Qed.

(** No call writes [defaultOutput]. *)
Lemma run_preserves_defaultOutput c : preserves defaultOutput (run c).
Proof.
  destruct c; cbn [run]; unfold_log; preserves;
    try (by apply preserves_apply_opts); by intros st.
Qed.

(** No call writes [defautLogLevel]. *)
Lemma run_preserves_defautLogLevel c : preserves defautLogLevel (run c).
Proof.
  destruct c; cbn [run]; unfold_log; preserves;
    try (by apply preserves_apply_opts); by intros st.
Qed.

(** Only the calls that install a logger write [logger]. *)
Lemma run_preserves_logger c : is_setup c = false -> preserves logger (run c).
Proof.
  destruct c; try discriminate; intros _; cbn [run]; unfold_log; preserves.
Qed.


(** After [InitWithOptions] the installed sink is the one just built. *)
Lemma InitWithOptions_installed component opts kvs st st' :
  mtx st = unlocked ->
  InitWithOptions component opts kvs st = Ret tt st' ->
  installed_sink st' =
    Some (foldl (fun s (opt : Option) => opt s)
            (mkLogSink component 0 (defaultOutput st) kvs JSONEncoder) opts).
Proof.
  intros Hm. rewrite InitWithOptions_lone by done. intros [= <-].
  unfold installed_sink. simpl. apply lookup_last.
Qed.

Lemma InitWithOptions_total component opts kvs st :
  InitWithOptions component opts kvs st = Blocked \/
  exists st', InitWithOptions component opts kvs st = Ret tt st'.
Proof.
  destruct (mtx st) as [wr rd] eqn:Hm.
  destruct wr; [|destruct rd as [|n]].
  - left. apply exclusive_call_blocks. rewrite Hm. by left.
  - right. eexists. by apply InitWithOptions_lone.
  - left. apply exclusive_call_blocks. rewrite Hm. by right.
Qed.

(** C9. [MustInit] is [Init] and [MustInitWithOptions] is
    [InitWithOptions]; whatever the state, neither ever panics. *)
Theorem Must_variants_are_the_plain_ones (component : string)
    (opts : list Option) (kvs : list any) :
  MustInit component kvs = Init component kvs /\
  MustInitWithOptions component opts kvs =
    InitWithOptions component opts kvs /\
  (forall st st', MustInit component kvs st <> Panic st') /\
  (forall st st', MustInitWithOptions component opts kvs st <> Panic st').
Proof.
  split; [reflexivity|]. split; [reflexivity|]. split; intros st st'.
  - unfold MustInit, Init.
    by destruct (InitWithOptions_total component [] kvs st)
      as [->|[st'' ->]].
  - unfold MustInitWithOptions.
    by destruct (InitWithOptions_total component opts kvs st)
      as [->|[st'' ->]].
Qed.

(** *** UseLogger and GetLogger *)

Lemma UseLogger_lone l st :
  mtx st = unlocked -> UseLogger l st = Ret tt (set_logger l st).
Proof.
  intros Hm. unfold UseLogger. by rewrite exclusive_call; [|lock_free|].
Qed.

(** C8. For every logger [l], [UseLogger l] followed by [GetLogger]
    returns exactly [l]; [GetLogger] returns the logger variable and leaves
    the state as it is, so it reads back whatever [UseLogger] or
    [InitWithOptions] installed last. *)
Theorem GetLogger_reads_back_UseLogger (l : Logger) (st : State) :
  mtx st = unlocked ->
  (exists st', UseLogger l st = Ret tt st' /\ GetLogger st' = Ret l st') /\
  (forall st0, GetLogger st0 = Ret (logger st0) st0) /\
  (forall component opts kvs,
     exists st', InitWithOptions component opts kvs st = Ret tt st' /\
       GetLogger st' = Ret (logr_New (SinkLog (length (heap st)))) st').
Proof.
  intros Hm. split; [|split].
  - exists (set_logger l st). by rewrite UseLogger_lone.
  - reflexivity.
  - intros component opts kvs. eexists.
    by rewrite InitWithOptions_lone.
Qed.

(** *** The read-locked functions *)

Lemma V_lone lvl st :
  writer (mtx st) = false -> V lvl st = Ret (Logger_V (logger st) lvl) st.
Proof. intros Hm. unfold V. by rewrite shared_call; [|lock_free|]. Qed.

Lemma wrap64_small z : - 2 ^ 63 <= z < 2 ^ 63 -> wrap64 z = z.
Proof. intros Hz. unfold wrap64. rewrite Z.mod_small; lia. Qed.

(** C6. For every level [n], [V n] returns [logger.V(n)] of the installed
    logger: the same sink, the level raised by [n] (negative [n] counting
    as 0), and the state, with the installed logger and all sinks, is
    exactly as before. *)
Theorem V_derives_without_mutation (n : Z) (st : State) :
  writer (mtx st) = false ->
  V n st = Ret (Logger_V (logger st) n) st /\
  sink (Logger_V (logger st) n) = sink (logger st) /\
  level (Logger_V (logger st) n) =
    wrap64 (level (logger st) + Z.max 0 n) /\
  (level (logger st) = 0 -> 0 <= n < 2 ^ 63 ->
   level (Logger_V (logger st) n) = n).
Proof.
  intros Hm. split; [by apply V_lone|]. split; [reflexivity|].
  assert (Hmax : (if n <? 0 then 0 else n) = Z.max 0 n)
    by (destruct (Z.ltb_spec n 0); lia).
  split.
  - unfold Logger_V. simpl. by rewrite Hmax.
  - intros Hl Hn. unfold Logger_V. simpl. rewrite Hmax, Hl.
    rewrite wrap64_small; lia.
Qed.

Lemma Info_lone msg kvs st :
  writer (mtx st) = false ->
  Info msg kvs st = Logger_Info (logger st) msg kvs st.
Proof. intros Hm. unfold Info. by rewrite shared_call; [|lock_free|]. Qed.

Lemma Error_lone err msg kvs st :
  writer (mtx st) = false ->
  Error err msg kvs st = Logger_Error (logger st) err msg kvs st.
Proof. intros Hm. unfold Error. by rewrite shared_call; [|lock_free|]. Qed.

Lemma WithValues_lone kvs st :
  writer (mtx st) = false ->
  WithValues kvs st = Logger_WithValues (logger st) kvs st.
Proof.
  intros Hm. unfold WithValues. by rewrite shared_call; [|lock_free|].
Qed.

Lemma WithName_lone n st :
  writer (mtx st) = false ->
  WithName n st = Logger_WithName (logger st) n st.
Proof. intros Hm. unfold WithName. by rewrite shared_call; [|lock_free|]. Qed.

(** C5. For every message, error and key/value list, the package-level
    [Info] and [Error] do what the installed logger's [Info] and [Error] do
    with the same arguments, [WithValues] and [WithName] return what the
    installed logger's methods return, and none of the four changes which
    logger is installed. *)
Theorem readers_delegate_to_installed_logger (msg : string)
    (err : option error) (kvs : list any) (n : string) (st : State) :
  writer (mtx st) = false ->
  Info msg kvs st = Logger_Info (logger st) msg kvs st /\
  Error err msg kvs st = Logger_Error (logger st) err msg kvs st /\
  WithValues kvs st = Logger_WithValues (logger st) kvs st /\
  WithName n st = Logger_WithName (logger st) n st /\
  preserves logger (Info msg kvs) /\
  preserves logger (Error err msg kvs) /\
  preserves logger (WithValues kvs) /\
  preserves logger (WithName n).
Proof.
  intros Hm.
  split; [by apply Info_lone|]. split; [by apply Error_lone|].
  split; [by apply WithValues_lone|]. split; [by apply WithName_lone|].
  repeat split; unfold_log; preserves.
Qed.

(** *** LogSink.Enabled *)

(** C7. For every threshold [T] and level [L], [Enabled(L)] on a sink with
    threshold [T] is true if and only if [L <= T], and the call leaves the
    state, the sink included, as it is. *)
Theorem Enabled_iff_level_le_threshold (s : LogSink) (T L : Z) (ls : loc)
    (st : State) :
  verbosity s = T ->
  heap st !! ls = Some s ->
  (Enabled s L = true <-> L <= T) /\
  LogSink_Enabled ls L st = Ret (Enabled s L) st.
Proof.
  intros HT Hls. split.
  - unfold Enabled. rewrite HT. apply Z.leb_le.
  - unfold LogSink_Enabled. rewrite bind_eq. unfold deref. by rewrite Hls.
Qed.

(** *** Every call is its body between acquiring and releasing the lock *)

Lemma run_guarded c st :
  run c st =
    (acquire (guard_of c) ;; defer (release (guard_of c)) (body_of c)) st.
Proof.
  destruct c; cbn [run guard_of body_of acquire release];
    unfold_log; unfold init_body, NewLogSink, GetSink;
    rewrite ?unknown_logger_error_eq;
    unfold mbind, M_bind, mret, M_ret, bind, ret, defer, load;
    repeat case_match; congruence.
Qed.

Lemma run_lone c st : mtx st = unlocked -> run c st = body_of c st.
Proof.
  intros Hm. rewrite run_guarded.
  destruct (guard_of c); cbn [acquire release].
  - apply exclusive_call; [apply lock_free_body_of|done].
  - apply shared_call; [apply lock_free_body_of|by rewrite Hm].
  - rewrite bind_eq. simpl. unfold defer. by destruct (body_of c st).
Qed.

Lemma run_keeps_mtx c st r st' :
  mtx st = unlocked -> run c st = Ret r st' -> mtx st' = unlocked.
Proof.
  intros Hm. rewrite run_lone by done. intros Hr.
  pose proof (lock_free_mtx (body_of c) st (lock_free_body_of c)) as Hb.
  rewrite Hr in Hb. by rewrite Hb.
Qed.

Lemma run_all_keeps cs : forall st st',
  mtx st = unlocked -> run_all cs st = Some st' ->
  mtx st' = unlocked /\
  defaultOutput st' = defaultOutput st /\
  defautLogLevel st' = defautLogLevel st.
Proof.
  induction cs as [|c cs IH]; intros st st' Hm; simpl.
  - by intros [= <-].
  - destruct (run c st) as [r st1| |] eqn:Hr; [|done..]. intros Hcs.
    destruct (IH st1 st') as (? & HO & HL);
      [by eapply run_keeps_mtx|done|].
    pose proof (run_preserves_defaultOutput c st) as HO1.
    pose proof (run_preserves_defautLogLevel c st) as HL1.
    rewrite Hr in HO1, HL1. split; [done|]. split; congruence.
Qed.

Lemma foldl_keeps {A} (g : LogSink -> A) opts : forall s0,
  Forall (keeps g) opts ->
  g (foldl (fun s (opt : Option) => opt s) s0 opts) = g s0.
Proof.
  induction opts as [|opt opts IH]; intros s0 Hk; simpl; [done|].
  inversion Hk as [|? ? Hopt Hopts]; subst. by rewrite IH, Hopt.
Qed.

(** *** The logger installed by package initialisation *)

Lemma init_state_ready : default_logger_ready init_state.
Proof. repeat split. exists (mkLogSink "" 0 Stdout [] JSONEncoder). done. Qed.

(** The initial state is what [logr.New(NewLogSink("", os.Stdout, 0,
    JSONEncoder{}))] builds on an empty heap. *)
Lemma init_state_built l0 :
  (ls ← NewLogSink "" Stdout 0 JSONEncoder []; useLogger (logr_New (SinkLog ls)))
    (mkState [] [] [] Stdout 0 unlocked l0)
  = Ret tt init_state.
Proof. reflexivity. Qed.

(** On the default logger every call returns, and the calls that do not
    install a logger leave it in place. *)
Lemma ready_step c st :
  default_logger_ready st ->
  exists r st', run c st = Ret r st' /\
    (is_setup c = false -> default_logger_ready st').
Proof.
  intros (Hm & Hl & s & Hs & Hn & Hf & He).
  destruct (is_setup c) eqn:Hc.
  - destruct c; try discriminate; cbn [run]; rewrite bind_eq;
      unfold MustInit, MustInitWithOptions; unfold Init;
      rewrite ?InitWithOptions_lone, ?UseLogger_lone by done;
      by eexists _, _.
  - rewrite run_lone by done.
    destruct st as [h w d dO dL m lg]. simpl in *. subst m lg.
    destruct h as [|s0 h]; [done|]. injection Hs as ->.
    assert (Hready : forall h' w' d' v' o',
      default_logger_ready
        (mkState (mkLogSink (name s) v' o' (fields s) (encoder s) :: h')
           w' d' dO dL unlocked (logr_New (SinkLog 0%nat)))).
    { intros. repeat split. eexists. by repeat split. }
    assert (Hsame : forall h' w' d',
      default_logger_ready
        (mkState (s :: h') w' d' dO dL unlocked (logr_New (SinkLog 0%nat)))).
    { intros. repeat split. eexists. by repeat split. }
    destruct c; try discriminate; cbn [body_of]; unfold_log;
      unfold mbind, M_bind, mret, M_ret, bind, ret, load, deref, store,
        alloc, emit;
      cbv [heap written delivered defaultOutput defautLogLevel mtx logger
           sink level lookup list_lookup logr_New set_heap set_written
           set_delivered set_logger];
      cbn; try (destruct (Enabled s 0) eqn:HE; cbn; rewrite ?HE; cbn);
      eexists _, _; (split; [reflexivity|]); intros _;
      first [apply Hsame | apply Hready].
Qed.

Lemma ready_run_all cs : forall st,
  default_logger_ready st ->
  forallb (fun c => negb (is_setup c)) cs = true ->
  exists st', run_all cs st = Some st' /\ default_logger_ready st'.
Proof.
  induction cs as [|c cs IH]; intros st Hst Hcs; simpl in *.
  - by exists st.
  - apply andb_prop in Hcs as [Hc Hcs]. apply negb_true_iff in Hc.
    destruct (ready_step c st Hst) as (r & st1 & -> & Hst1). auto.
Qed.

(** C3. Before any call to Init, InitWithOptions or UseLogger the global
    logger is [logr.New] of a LogSink with empty component name, output
    os.Stdout, verbosity 0 and the JSON encoder; and after any sequence of
    the other package-level calls that logger is still installed over a
    live sink, so that every further call returns, [SetLogLevel] and
    [SetOutput] returning nil. *)
Theorem default_logger_before_setup :
  logger init_state = logr_New (SinkLog 0%nat) /\
  installed_sink init_state = Some (mkLogSink "" 0 Stdout [] JSONEncoder) /\
  forall cs,
    forallb (fun c => negb (is_setup c)) cs = true ->
    exists st,
      run_all cs init_state = Some st /\
      logger st = logr_New (SinkLog 0%nat) /\
      (exists s, installed_sink st = Some s /\
         name s = "" /\ encoder s = JSONEncoder) /\
      (forall c, exists r st', run c st = Ret r st') /\
      (forall v, exists st', SetLogLevel v st = Ret None st') /\
      (forall w, exists st', SetOutput w st = Ret None st').
Proof.
  split; [reflexivity|]. split; [reflexivity|]. intros cs Hcs.
  destruct (ready_run_all cs init_state init_state_ready Hcs)
    as (st & Hrun & Hst).
  exists st. split; [done|].
  pose proof Hst as (Hm & Hl & s & Hs & Hn & Hf & He).
  split; [done|]. split; [|split; [|split]].
  - exists s. unfold installed_sink. by rewrite Hl.
  - intros c. destruct (ready_step c st Hst) as (r & st' & Hr & _). eauto.
  - intros v. rewrite SetLogLevel_lone by done. rewrite Hl.
    cbn [GetSink logr_New sink]. rewrite Hs. eauto.
  - intros w. rewrite SetOutput_lone by (by rewrite Hm). rewrite Hl.
    cbn [GetSink logr_New sink]. rewrite Hs. eauto.
Qed.

(** *** The package defaults *)

(** C10, amended. No facade call writes [defaultOutput] or
    [defautLogLevel]; [SetOutput] rewrites only the installed sink object.
    So after any sequence of calls from package initialisation both
    defaults still read os.Stdout and 0, and a later [InitWithOptions]
    installs a sink that writes to os.Stdout when no option sets the
    output, and has verbosity 0 when no option sets the verbosity; [Init]
    always installs a sink writing to os.Stdout with verbosity 0. *)
Theorem defaults_survive_setters :
  (forall c, preserves defaultOutput (run c) /\
             preserves defautLogLevel (run c)) /\
  (forall w st p s,
     writer (mtx st) = false ->
     GetSink (logger st) = SinkLog p -> heap st !! p = Some s ->
     SetOutput w st =
       Ret None (set_heap (<[p := set_output w s]> (heap st)) st)) /\
  (forall cs st,
     run_all cs init_state = Some st ->
     defaultOutput st = Stdout /\ defautLogLevel st = 0 /\
     (forall component opts kvs,
        exists st' s,
          InitWithOptions component opts kvs st = Ret tt st' /\
          installed_sink st' = Some s /\
          (Forall (keeps output) opts -> output s = Stdout) /\
          (Forall (keeps verbosity) opts -> verbosity s = 0)) /\
     (forall component kvs,
        exists st' s,
          Init component kvs st = Ret tt st' /\
          installed_sink st' = Some s /\
          output s = Stdout /\ verbosity s = 0)).
Proof.
  split; [|split].
  - intros c. split.
    + apply run_preserves_defaultOutput.
    + apply run_preserves_defautLogLevel.
  - intros w st p s Hm Hp Hs. rewrite SetOutput_lone by done.
    by rewrite Hp, Hs.
  - intros cs st Hcs.
    destruct (run_all_keeps cs init_state st eq_refl Hcs) as (Hm & HO & HL).
    simpl in HO, HL.
    assert (Hinit : forall component opts kvs,
      exists st' s,
        InitWithOptions component opts kvs st = Ret tt st' /\
        installed_sink st' = Some s /\
        (Forall (keeps output) opts -> output s = Stdout) /\
        (Forall (keeps verbosity) opts -> verbosity s = 0)).
    { intros component opts kvs. eexists _, _.
      split; [by apply InitWithOptions_lone|].
      split; [unfold installed_sink; simpl; apply lookup_last|].
      split; intros Hk; rewrite foldl_keeps by done; simpl; congruence. }
    split; [done|]. split; [done|]. split; [done|].
    intros component kvs.
    destruct (Hinit component [] kvs) as (st' & s & Hr & Hs & Ho & Hv).
    exists st', s. unfold Init. auto.
Qed.

(** *** Calls running side by side *)

Lemma holders_app g l1 l2 :
  holders g (l1 ++ l2) = (holders g l1 + holders g l2)%nat.
Proof.
  induction l1 as [|c l1 IH]; simpl; [done|].
  destruct (decide (guard_of c = g)); lia.
Qed.

Lemma holders_mid g i1 c i2 :
  holders g (i1 ++ c :: i2) =
    (holders g (i1 ++ i2) + (if decide (guard_of c = g) then 1 else 0))%nat.
Proof.
  rewrite !holders_app. simpl. destruct (decide (guard_of c = g)); lia.
Qed.

Lemma holders_none l :
  holders Exclusive l = O -> holders Shared l = O ->
  Forall (fun c => guard_of c = Unguarded) l.
Proof.
  induction l as [|c l IH]; simpl; [constructor|].
  destruct (decide (guard_of c = Exclusive)); [done|].
  destruct (decide (guard_of c = Shared)); [done|].
  intros He Hs. constructor; [|by apply IH].
  by destruct (guard_of c).
Qed.

(** Leaving: the body has left the lock alone, then the release runs. *)
Lemma leave_release c st st' :
  after (defer (release (guard_of c)) (body_of c) st) = Some st' ->
  exists st1, mtx st1 = mtx st /\
    after (release (guard_of c) st1) = Some st'.
Proof.
  unfold defer.
  pose proof (lock_free_mtx (body_of c) st (lock_free_body_of c)) as Hb.
  destruct (body_of c st) as [r st1|st1|]; [| |done];
    intros Hd; exists st1; (split; [done|]);
    by destruct (release (guard_of c) st1).
Qed.

Lemma holders_cons g c l :
  holders g (c :: l) =
    ((if decide (guard_of c = g) then 1 else 0) + holders g l)%nat.
Proof. simpl. by destruct (decide (guard_of c = g)). Qed.

Ltac holders_norm Hg :=
  rewrite ?holders_mid, ?holders_cons in *; rewrite ?Hg in *;
  repeat (case_decide; try done); simpl in *.

Lemma lock_announce_Ret st st' :
  lock_announce st = Ret tt st' ->
  writer (mtx st) = false /\
  st' = set_mtx (mkRWMutex true (readers (mtx st))) st.
Proof.
  unfold lock_announce. destruct (writer (mtx st)); [done|].
  by intros [= <-].
Qed.

Lemma lock_drain_Ret st st' :
  lock_drain st = Ret tt st' -> readers (mtx st) = O /\ st' = st.
Proof.
  unfold lock_drain. destruct (readers (mtx st)); [|done].
  by intros [= <-].
Qed.

(** [mtx.Lock()] is the announcement followed by the wait for the
    readers. *)
Lemma mtx_Lock_phases st : mtx_Lock st = (lock_announce ;; lock_drain) st.
Proof.
  rewrite bind_eq. unfold mtx_Lock, lock_announce, lock_drain.
  destruct (writer (mtx st)); simpl; [done|].
  by destruct (readers (mtx st)).
Qed.

Lemma pool_step_inv P P' : lock_inv P -> pool_step P P' -> lock_inv P'.
Proof.
  intros [Hr Hw] Hstep. destruct Hstep as
    [st st' c w1 w2 ins fin Hacq|st st' c w i1 i2 fin Hleave
    |st st' c w1 w2 ins fin Hg Hann|st st' c w1 w2 ins fin Hg Hwr Hex Hdr];
    unfold lock_inv in *; cbn [shared waiting inside] in *.
  - destruct (guard_of c) eqn:Hg; simpl in Hacq.
    + unfold mtx_Lock in Hacq.
      destruct (writer (mtx st)) eqn:Hwr; [done|].
      destruct (readers (mtx st)) eqn:Hrd; [|done].
      simpl in Hacq. injection Hacq as <-.
      holders_norm Hg. split; [done|]. left. lia.
    + unfold mtx_RLock in Hacq.
      destruct (writer (mtx st)) eqn:Hwr; [done|].
      injection Hacq as <-. holders_norm Hg. lia.
    + injection Hacq as <-. holders_norm Hg.
      rewrite !Nat.add_0_r in Hw. done.
  - apply leave_release in Hleave as (st1 & Hm & Hrel).
    rewrite <- Hm in Hr, Hw.
    destruct (guard_of c) eqn:Hg; simpl in Hrel.
    + unfold mtx_Unlock in Hrel. holders_norm Hg.
      destruct (writer (mtx st1)) eqn:Hwr; [|lia].
      injection Hrel as <-. simpl. lia.
    + unfold mtx_RUnlock in Hrel. holders_norm Hg.
      destruct (readers (mtx st1)) as [|k] eqn:Hrd; [lia|].
      injection Hrel as <-. simpl.
      destruct (writer (mtx st1)); [|lia].
      split; [lia|]. right. lia.
    + injection Hrel as <-. holders_norm Hg.
      rewrite !Nat.add_0_r in *. done.
  - apply lock_announce_Ret in Hann as [Hwr ->]. rewrite Hwr in Hw.
    simpl. split; [done|]. right. split; [done|].
    holders_norm Hg. lia.
  - apply lock_drain_Ret in Hdr as [Hrd ->]. rewrite Hwr in *.
    holders_norm Hg. split; [lia|]. left. lia.
Qed.

Lemma pool_steps_inv P P' : rtc pool_step P P' -> lock_inv P -> lock_inv P'.
Proof.
  induction 1 as [|P P1 P' Hstep _ IH]; [done|].
  intros HP. apply IH. by eapply pool_step_inv.
Qed.

Lemma pool_reachable_inv st0 cs P :
  mtx st0 = unlocked ->
  rtc pool_step (mkPool st0 cs [] []) P -> lock_inv P.
Proof.
  intros Hm Hsteps. eapply pool_steps_inv; [done|].
  unfold lock_inv. simpl. by rewrite Hm.
Qed.

(** X1. While a call that took [mtx.Lock()] is between its Lock and its
    Unlock, every other call that is past its own lock operation is one
    that takes no lock at all. *)
Theorem exclusive_calls_run_alone st0 cs P i1 c i2 :
  mtx st0 = unlocked ->
  rtc pool_step (mkPool st0 cs [] []) P ->
  inside P = i1 ++ c :: i2 ->
  guard_of c = Exclusive ->
  Forall (fun c' => guard_of c' = Unguarded) (i1 ++ i2).
Proof.
  intros Hm Hsteps Hin Hc.
  destruct (pool_reachable_inv st0 cs P Hm Hsteps) as [Hr Hw].
  rewrite Hin in Hr, Hw.
  rewrite (holders_mid Shared) in Hr, Hw.
  rewrite (holders_mid Exclusive) in Hw. rewrite Hc in Hr, Hw.
  destruct (decide (Exclusive = Exclusive)); [|done].
  destruct (decide (Exclusive = Shared)); [done|].
  destruct (writer (mtx (shared P))); [|lia].
  apply holders_none; lia.
Qed.

(** A call that opens with [mtx.Lock()] waits while any reader or writer
    is inside. *)
Lemma exclusive_calls_wait c st :
  guard_of c = Exclusive ->
  writer (mtx st) = true \/ readers (mtx st) <> O ->
  run c st = Blocked.
Proof.
  intros Hc Hm. rewrite run_guarded, Hc. by apply exclusive_call_blocks.
Qed.

(** C2. [SetOutput] opens with [mtx.RLock()], not [mtx.Lock()]: with a
    reader between its RLock and RUnlock, [SetLogLevel] waits but
    [SetOutput] goes ahead and rewrites the sink's output; and from package
    initialisation there is a run in which a [SetOutput] call and an [Info]
    call are inside the lock at the same time. *)
Theorem SetOutput_takes_only_the_read_lock (w : Writer) (v : Z)
    (msg : string) (kvs : list any) :
  guard_of (CSetOutput w) = Shared /\
  guard_of (CSetLogLevel v) = Exclusive /\
  SetLogLevel v (set_mtx (mkRWMutex false 1) init_state) = Blocked /\
  SetOutput w (set_mtx (mkRWMutex false 1) init_state) =
    Ret None
      (set_heap [mkLogSink "" 0 w [] JSONEncoder]
         (set_mtx (mkRWMutex false 1) init_state)) /\
  exists P,
    rtc pool_step (mkPool init_state [CInfo msg kvs; CSetOutput w] [] []) P /\
    inside P = [CSetOutput w; CInfo msg kvs].
Proof.
  split; [reflexivity|]. split; [reflexivity|]. split; [|split].
  - apply exclusive_call_blocks. by right.
  - by rewrite SetOutput_lone.
  - eexists. split.
    + eapply rtc_l.
      { eapply (pool_enter init_state _ (CInfo msg kvs) []
                  [CSetOutput w] [] []). reflexivity. }
      eapply rtc_l; [|apply rtc_refl].
      eapply (pool_enter _ _ (CSetOutput w) [] [] [CInfo msg kvs] []).
      reflexivity.
    + reflexivity.
Qed.

(** *** The lock around every call *)

Lemma nonblocking_ret {A} (a : A) : nonblocking (mret a).
Proof. by intros st. Qed.

Lemma nonblocking_load {A} (var : State -> A) : nonblocking (load var).
Proof. by intros st. Qed.

Lemma nonblocking_bind {A B} (m : M A) (k : A -> M B) :
  nonblocking m -> (forall a, nonblocking (k a)) -> nonblocking (m ≫= k).
Proof.
  intros Hm Hk st. rewrite bind_eq. specialize (Hm st).
  destruct (m st) as [a st'|st'|]; [apply Hk|done..].
Qed.

Lemma nonblocking_if {A} (b : bool) (m1 m2 : M A) :
  nonblocking m1 -> nonblocking m2 -> nonblocking (if b then m1 else m2).
Proof. by destruct b. Qed.

Lemma nonblocking_deref p : nonblocking (deref p).
Proof. intros st. unfold deref. by destruct (heap st !! p). Qed.

Lemma nonblocking_store p s : nonblocking (store p s).
Proof. intros st. unfold store. by destruct (heap st !! p). Qed.

Lemma nonblocking_alloc s : nonblocking (alloc s).
Proof. by intros st. Qed.

Lemma nonblocking_emit w e r : nonblocking (emit w e r).
Proof. by intros st. Qed.

Lemma nonblocking_deliver f r : nonblocking (deliver f r).
Proof. by intros st. Qed.

Lemma nonblocking_useLogger l : nonblocking (useLogger l).
Proof. by intros st. Qed.

Ltac nonblocking :=
  repeat first
    [ progress intros
    | match goal with
      | |- nonblocking (mret _) => apply nonblocking_ret
      | |- nonblocking (load _) => apply nonblocking_load
      | |- nonblocking (_ ≫= _) => apply nonblocking_bind
      | |- nonblocking (if _ then _ else _) => apply nonblocking_if
      | |- nonblocking (deref _) => apply nonblocking_deref
      | |- nonblocking (store _ _) => apply nonblocking_store
      | |- nonblocking (alloc _) => apply nonblocking_alloc
      | |- nonblocking (emit _ _ _) => apply nonblocking_emit
      | |- nonblocking (deliver _ _) => apply nonblocking_deliver
      | |- nonblocking (useLogger _) => apply nonblocking_useLogger
      | |- nonblocking (match ?x with _ => _ end) => destruct x
      end ].

Lemma nonblocking_apply_opts opts ls : nonblocking (apply_opts opts ls).
Proof. induction opts; simpl; nonblocking; assumption. Qed.

(** Between taking and releasing the lock no call waits for anything. *)
Lemma nonblocking_body_of c : nonblocking (body_of c).
Proof.
  destruct c; cbn [body_of]; unfold init_body; unfold_log; nonblocking;
    apply nonblocking_apply_opts.
Qed.

Lemma release_nonblocking g : nonblocking (release g).
Proof.
  intros st. destruct g; simpl; [| |done].
  - unfold mtx_Unlock. by destruct (writer (mtx st)).
  - unfold mtx_RUnlock. by destruct (readers (mtx st)).
Qed.

(** Once the lock is taken the call runs to its end. *)
Lemma guarded_body_nonblocking c : nonblocking
  (defer (release (guard_of c)) (body_of c)).
Proof.
  intros st. unfold defer.
  pose proof (nonblocking_body_of c st) as Hb.
  destruct (body_of c st) as [r st1|st1|]; [| |done];
    pose proof (release_nonblocking (guard_of c) st1) as Hr;
    by destruct (release (guard_of c) st1).
Qed.

Lemma acquire_admits g st :
  acquire g st =
    if admits (mtx st) g
    then Ret tt
           (match g with
            | Exclusive => set_mtx (mkRWMutex true (readers (mtx st))) st
            | Shared => set_mtx (mkRWMutex false (S (readers (mtx st)))) st
            | Unguarded => st
            end)
    else Blocked.
Proof.
  destruct g; simpl; [| |done].
  - unfold mtx_Lock. destruct (writer (mtx st)); simpl; [done|].
    by destruct (Nat.eqb (readers (mtx st)) 0).
  - unfold mtx_RLock. by destruct (writer (mtx st)).
Qed.

Lemma admits_false m g :
  admits m g = false <->
  match g with
  | Exclusive => writer m = true \/ readers m <> O
  | Shared => writer m = true
  | Unguarded => False
  end.
Proof.
  destruct m as [wr rd], g; simpl.
  - destruct wr, rd; simpl; split; auto; intros [Hw|Hr]; congruence.
  - by destruct wr.
  - split; [discriminate|tauto].
Qed.

(** X3. A call waits for the lock exactly when the lock is taken against
    it: one that opens with [mtx.Lock()] when a writer is ahead of it
    (holding the lock or queued for it) or any reader is inside, one that
    opens with [mtx.RLock()] when a writer holds the lock or is queued for
    it, and [GetLogger], which takes no lock, never. *)
Theorem calls_wait_exactly_for_lock_holders (c : Call) (st : State) :
  run c st = Blocked <->
  match guard_of c with
  | Exclusive => writer (mtx st) = true \/ readers (mtx st) <> O
  | Shared => writer (mtx st) = true
  | Unguarded => False
  end.
Proof.
  rewrite <- admits_false, run_guarded, bind_eq, acquire_admits.
  destruct (admits (mtx st) (guard_of c)); [|done].
  split; [|done]. intros Hb. by apply guarded_body_nonblocking in Hb.
Qed.

(** X2. Every call gives the lock back: whether it returns or panics, the
    deferred unlock has run and [mtx] is as the call found it. *)
Theorem lock_released_on_every_exit (c : Call) : preserves mtx (run c).
Proof.
  intros st. rewrite run_guarded, bind_eq, acquire_admits.
  destruct (admits (mtx st) (guard_of c)) eqn:Hadm; [|done].
  unfold defer.
  destruct (guard_of c); simpl in Hadm |- *;
    match goal with
    | |- context [body_of c ?st1] =>
        pose proof (lock_free_mtx (body_of c) st1 (lock_free_body_of c))
          as Hb;
        destruct (body_of c st1) as [r st2|st2|]; [| |done]
    end; simpl in Hb;
    unfold mtx_Unlock, mtx_RUnlock; rewrite ?Hb; simpl;
    destruct (mtx st) as [wr rd]; simpl in *;
    try (destruct wr; [done|]); try (destruct rd; [|done]); done.
Qed.

(** X7. The locked functions do not nest: called between [mtx.Lock()] and
    [mtx.Unlock()], any function that takes the lock itself waits forever,
    and so does one that takes [mtx.Lock()] when called under
    [mtx.RLock()]; in particular [UseLogger] under the write lock, which is
    why [InitWithOptions] ends with [useLogger], which never waits. *)
Theorem locked_calls_do_not_nest (c : Call) (l : Logger) (st : State) :
  (guard_of c <> Unguarded ->
   (mtx_Lock ;; defer mtx_Unlock (run c)) st = Blocked) /\
  (guard_of c = Exclusive ->
   (mtx_RLock ;; defer mtx_RUnlock (run c)) st = Blocked) /\
  (mtx_Lock ;; defer mtx_Unlock (UseLogger l)) st = Blocked /\
  nonblocking (useLogger l).
Proof.
  split; [|split; [|split]].
  - intros Hc. rewrite bind_eq. unfold mtx_Lock.
    destruct (writer (mtx st) || negb (Nat.eqb (readers (mtx st)) 0));
      [done|].
    unfold defer. rewrite run_guarded, bind_eq, acquire_admits.
    by destruct (guard_of c).
  - intros Hc. rewrite bind_eq. unfold mtx_RLock.
    destruct (writer (mtx st)); [done|].
    unfold defer. rewrite run_guarded, bind_eq, acquire_admits.
    by rewrite Hc.
  - rewrite bind_eq. unfold mtx_Lock.
    destruct (writer (mtx st) || negb (Nat.eqb (readers (mtx st)) 0));
      [done|].
    unfold defer, UseLogger. by rewrite exclusive_call_blocks; [|left].
  - apply nonblocking_useLogger.
Qed.

(** *** Calls one after the other *)

Lemma run_blocked_admits c st :
  run c st = Blocked <-> admits (mtx st) (guard_of c) = false.
Proof.
  rewrite run_guarded, bind_eq, acquire_admits.
  destruct (admits (mtx st) (guard_of c)); [|done].
  split; [|done]. intros Hb. by apply guarded_body_nonblocking in Hb.
Qed.

(** A call the lock lets in does what its body does. *)
Lemma run_admitted c st :
  admits (mtx st) (guard_of c) = true -> run c st = body_of c st.
Proof.
  intros Hadm. rewrite run_guarded.
  destruct (guard_of c); cbn [acquire release]; simpl in Hadm.
  - apply andb_prop in Hadm as [Hw Hr].
    apply negb_true_iff in Hw. apply Nat.eqb_eq in Hr.
    apply exclusive_call; [apply lock_free_body_of|].
    destruct (mtx st); simpl in *. by subst.
  - apply negb_true_iff in Hadm.
    apply shared_call; [apply lock_free_body_of|done].
  - rewrite bind_eq. simpl. unfold defer. by destruct (body_of c st).
Qed.

(** X6. Only Init, MustInit, InitWithOptions, MustInitWithOptions and
    UseLogger change which logger is installed: after any sequence of the
    other calls [GetLogger] still returns the logger it returned before. *)
Theorem only_installing_calls_change_logger (cs : list Call)
    (st st' : State) :
  forallb (fun c => negb (is_setup c)) cs = true ->
  run_all cs st = Some st' ->
  logger st' = logger st /\ GetLogger st' = Ret (logger st) st'.
Proof.
  intros Hcs Hrun. assert (Hl : logger st' = logger st).
  { revert st Hcs Hrun.
    induction cs as [|c cs IH]; intros st Hcs Hrun; simpl in *.
    - by injection Hrun as <-.
    - apply andb_prop in Hcs as [Hc Hcs]. apply negb_true_iff in Hc.
      pose proof (run_preserves_logger c Hc st) as Hp.
      destruct (run c st) as [r st1| |]; [|done..].
      rewrite (IH st1 Hcs Hrun). done. }
  split; [done|]. unfold GetLogger, load. by rewrite Hl.
Qed.

(** X8. After [InitWithOptions], whatever logger was installed before,
    [SetLogLevel] and [SetOutput] return nil and rewrite the newly
    installed sink only: every sink object that existed before the
    initialisation is still in place, unchanged. *)
Theorem setters_after_InitWithOptions (component : string)
    (opts : list Option) (kvs : list any) (v : Z) (w : Writer)
    (st : State) :
  mtx st = unlocked ->
  exists st1 built,
    InitWithOptions component opts kvs st = Ret tt st1 /\
    installed_sink st1 = Some built /\
    SetLogLevel v st1 =
      Ret None (set_heap (heap st ++ [set_verbosity v built]) st1) /\
    SetOutput w st1 =
      Ret None (set_heap (heap st ++ [set_output w built]) st1).
Proof.
  intros Hm. eexists _, _.
  split; [by apply InitWithOptions_lone|].
  split; [unfold installed_sink; simpl; apply lookup_last|].
  split.
  - rewrite SetLogLevel_lone by done. simpl.
    by rewrite lookup_last, insert_last.
  - rewrite SetOutput_lone by (simpl; by rewrite Hm). simpl.
    by rewrite lookup_last, insert_last.
Qed.

(** X9. With the lock free, the setters compose as assignments to two
    fields of the installed sink: two [SetLogLevel] calls, or two
    [SetOutput] calls, in a row have the outcome of the second alone, and
    a [SetLogLevel] and a [SetOutput] call have the same outcome in either
    order: the same state and the same returned error, or the same panic
    on a nil sink. *)
Theorem setters_compose (v1 v2 : Z) (w1 w2 : Writer) (st : State) :
  mtx st = unlocked ->
  (SetLogLevel v1 ;; SetLogLevel v2) st = SetLogLevel v2 st /\
  (SetOutput w1 ;; SetOutput w2) st = SetOutput w2 st /\
  (SetLogLevel v1 ;; SetOutput w1) st
    = (SetOutput w1 ;; SetLogLevel v1) st.
Proof.
  intros Hm.
  assert (Hw : writer (mtx st) = false) by (by rewrite Hm).
  rewrite !bind_eq.
  rewrite (SetLogLevel_lone v1 st), (SetLogLevel_lone v2 st),
    (SetOutput_lone w1 st), (SetOutput_lone w2 st) by done.
  destruct (GetSink (logger st)) as [p|f] eqn:Hp.
  - destruct (heap st !! p) as [s|] eqn:Hs; [|done].
    assert (Hlt : (p < length (heap st))%nat) by (by eapply lookup_lt_Some).
    rewrite !SetLogLevel_lone, !SetOutput_lone by done.
    cbn [logger heap set_heap]. rewrite Hp.
    rewrite !list_lookup_insert_eq by done.
    by rewrite !set_heap_twice, !list_insert_insert_eq.
  - rewrite !SetLogLevel_lone, !SetOutput_lone by done. by rewrite Hp.
Qed.

(** *** Loggers over live sinks *)

Lemma deref_live p s st : heap st !! p = Some s -> deref p st = Ret s st.
Proof. intros Hs. unfold deref. by rewrite Hs. Qed.

Lemma LogSink_Enabled_live p s lvl st :
  heap st !! p = Some s -> LogSink_Enabled p lvl st = Ret (Enabled s lvl) st.
Proof.
  intros Hs. unfold LogSink_Enabled. by rewrite bind_eq, (deref_live p s).
Qed.

Lemma Logger_Enabled_live l p s st :
  GetSink l = SinkLog p -> heap st !! p = Some s ->
  Logger_Enabled l st = Ret (level l <=? verbosity s) st.
Proof.
  unfold GetSink. intros Hl Hs. unfold Logger_Enabled. rewrite Hl.
  cbn [Sink_Enabled]. by rewrite (LogSink_Enabled_live p s).
Qed.

(** X11. [SetLogLevel] reaches the loggers handed out before it: the
    logger returned by [V] (and the one [GetLogger] returns) shares the
    installed sink object, so after [SetLogLevel v] it is enabled exactly
    when its level is at most [v]. *)
Theorem SetLogLevel_reaches_handed_out_loggers (n v : Z) (st : State)
    (p : loc) (s : LogSink) :
  mtx st = unlocked ->
  GetSink (logger st) = SinkLog p ->
  heap st !! p = Some s ->
  exists l st',
    V n st = Ret l st /\
    GetSink l = SinkLog p /\
    SetLogLevel v st = Ret None st' /\
    heap st' !! p = Some (set_verbosity v s) /\
    Logger_Enabled l st' = Ret (level l <=? v) st' /\
    Logger_Enabled (logger st) st' = Ret (level (logger st) <=? v) st'.
Proof.
  intros Hm Hp Hs.
  assert (Hlt : (p < length (heap st))%nat) by (by eapply lookup_lt_Some).
  exists (Logger_V (logger st) n),
    (set_heap (<[p := set_verbosity v s]> (heap st)) st).
  assert (Hs' : heap (set_heap (<[p := set_verbosity v s]> (heap st)) st)
                  !! p = Some (set_verbosity v s)).
  { cbn [heap set_heap]. by apply list_lookup_insert_eq. }
  split; [by apply V_lone; rewrite Hm|]. split; [done|].
  split; [by rewrite SetLogLevel_lone, Hp, Hs|]. split; [done|].
  split.
  - by rewrite (Logger_Enabled_live _ p (set_verbosity v s)).
  - by rewrite (Logger_Enabled_live _ p (set_verbosity v s)).
Qed.










(** *** Progress of calls running side by side *)

(** X4. Calls that open with [mtx.RLock()] run side by side: when no
    writer holds the lock or is queued for it, two of them can both be
    between their RLock and their RUnlock, the lock counting two more
    readers. *)
Theorem readers_run_together (c1 c2 : Call) (st : State) :
  guard_of c1 = Shared ->
  guard_of c2 = Shared ->
  writer (mtx st) = false ->
  exists st',
    rtc pool_step (mkPool st [c1; c2] [] []) (mkPool st' [] [c2; c1] []) /\
    mtx st' = mkRWMutex false (S (S (readers (mtx st)))).
Proof.
  intros H1 H2 Hw. eexists. split.
  - eapply rtc_l.
    { eapply (pool_enter st _ c1 [] [c2] [] []).
      rewrite H1. simpl. unfold mtx_RLock. by rewrite Hw. }
    eapply rtc_l; [|apply rtc_refl].
    eapply (pool_enter _ _ c2 [] [] [c1] []).
    rewrite H2. simpl. unfold mtx_RLock. simpl. reflexivity.
  - reflexivity.
Qed.

(** X12. A writer queued in [mtx.Lock()] holds new readers back: with one
    read-locked call inside and a write-locked call queued behind it, a
    further read-locked call waits; and in no step of any run does a
    read-locked call get inside while a writer holds the lock or is
    queued for it. *)
Theorem queued_writer_holds_readers_back (c1 c2 c3 : Call) (st : State) :
  guard_of c1 = Shared ->
  guard_of c2 = Exclusive ->
  guard_of c3 = Shared ->
  mtx st = unlocked ->
  (exists st',
     rtc pool_step (mkPool st [c1; c2; c3] [] [])
       (mkPool st' [c2; c3] [c1] []) /\
     mtx st' = mkRWMutex true 1 /\
     run c3 st' = Blocked) /\
  (forall P P',
     pool_step P P' ->
     writer (mtx (shared P)) = true ->
     (holders Shared (inside P') <= holders Shared (inside P))%nat).
Proof.
  intros H1 H2 H3 Hm. split.
  - eexists. split; [|split].
    + eapply rtc_l.
      { eapply (pool_enter st _ c1 [] [c2; c3] [] []).
        rewrite H1. simpl. unfold mtx_RLock. rewrite Hm. reflexivity. }
      eapply rtc_l; [|apply rtc_refl].
      eapply (pool_announce _ _ c2 [] [c3] [c1] [] H2). reflexivity.
    + reflexivity.
    + apply run_blocked_admits. by rewrite H3.
  - intros P P' Hstep. destruct Hstep as
      [st1 st' c w1 w2 ins fin Hacq|st1 st' c w i1 i2 fin Hleave
      |st1 st' c w1 w2 ins fin Hg Hann|st1 st' c w1 w2 ins fin Hg _ _ Hdr];
      cbn [shared waiting inside]; intros Hwr.
    + rewrite acquire_admits in Hacq.
      destruct (guard_of c) eqn:Hg; simpl in Hacq; rewrite ?Hwr in Hacq;
        [done|done|].
      rewrite holders_cons, Hg. by case_decide.
    + rewrite holders_mid. lia.
    + done.
    + rewrite holders_cons, Hg. by case_decide.
Qed.

Lemma pool_step_perm P P' :
  pool_step P P' ->
  waiting P' ++ inside P' ++ finished P'
    ≡ₚ waiting P ++ inside P ++ finished P.
Proof.
  intros [st st' c w1 w2 ins fin _|st st' c w i1 i2 fin _
         |st st' c w1 w2 ins fin _ _|st st' c w1 w2 ins fin _ _ _ _]; simpl.
  - rewrite <- !app_assoc. simpl. apply Permutation_app_head.
    symmetry. apply Permutation_middle.
  - apply Permutation_app_head. rewrite <- !app_assoc. simpl.
    apply Permutation_app_head. symmetry. apply Permutation_middle.
  - done.
  - rewrite <- !app_assoc. simpl. apply Permutation_app_head.
    symmetry. apply Permutation_middle.
Qed.

Lemma pool_steps_perm P P' :
  rtc pool_step P P' ->
  waiting P' ++ inside P' ++ finished P'
    ≡ₚ waiting P ++ inside P ++ finished P.
Proof.
  induction 1 as [|P P1 P' Hstep _ IH]; [done|].
  by rewrite IH, (pool_step_perm P P1).
Qed.

Lemma holders_split g l :
  holders g l <> O ->
  exists l1 c l2, l = l1 ++ c :: l2 /\ guard_of c = g.
Proof.
  induction l as [|c l IH]; simpl; [done|].
  destruct (decide (guard_of c = g)) as [Hc|Hc].
  - intros _. by exists [], c, l.
  - intros Hl. destruct (IH Hl) as (l1 & c' & l2 & -> & Hc').
    by exists (c :: l1), c', l2.
Qed.

(** As long as a call is waiting or inside, some call can move. *)
Lemma pool_progress P :
  lock_inv P ->
  waiting P <> [] \/ inside P <> [] ->
  exists P', pool_step P P'.
Proof.
  destruct P as [st w ins fin]. intros [Hr Hw] Hsome. simpl in *.
  destruct ins as [|c ins].
  - simpl in *. destruct (writer (mtx st)) eqn:Hwr.
    + destruct Hw as [[Hw _]|[_ Hw]]; [done|].
      destruct (holders_split _ _ Hw) as (w1 & c & w2 & -> & Hc).
      exists (mkPool st (w1 ++ w2) [c] fin).
      apply pool_admit; [done..|]. unfold lock_drain. by rewrite Hr.
    + destruct w as [|c w]; [by destruct Hsome|].
      assert (Hadm : admits (mtx st) (guard_of c) = true).
      { destruct (mtx st) as [wr rd]. simpl in *. subst.
        by destruct (guard_of c). }
      pose proof (acquire_admits (guard_of c) st) as Hacq.
      rewrite Hadm in Hacq. eexists.
      eapply (pool_enter st _ c [] w [] fin). exact Hacq.
  - pose proof (guarded_body_nonblocking c st) as Hnb.
    destruct (defer (release (guard_of c)) (body_of c) st)
      as [r st'|st'|] eqn:Hd; [| |done].
    + exists (mkPool st' w ([] ++ ins) (c :: fin)).
      apply (pool_leave st st' c w [] ins fin). by rewrite Hd.
    + exists (mkPool st' w ([] ++ ins) (c :: fin)).
      apply (pool_leave st st' c w [] ins fin). by rewrite Hd.
Qed.

(** Every step brings the pool closer to completion. *)
Lemma pool_step_measure P P' :
  pool_step P P' -> (pool_measure P' < pool_measure P)%nat.
Proof.
  unfold pool_measure.
  intros [st st' c w1 w2 ins fin Hacq|st st' c w i1 i2 fin Hleave
         |st st' c w1 w2 ins fin _ Hann|st st' c w1 w2 ins fin _ _ _ Hdr];
    cbn [shared waiting inside]; rewrite ?length_app; simpl length.
  - rewrite acquire_admits in Hacq.
    destruct (admits (mtx st) (guard_of c)) eqn:Hadm; [|done].
    injection Hacq as <-.
    destruct (guard_of c); simpl in Hadm |- *;
      destruct (writer (mtx st)); simpl in *; lia.
  - apply leave_release in Hleave as (st1 & Hm & Hrel). rewrite <- Hm.
    destruct (guard_of c); simpl in Hrel.
    + unfold mtx_Unlock in Hrel.
      destruct (writer (mtx st1)) eqn:Hwr; injection Hrel as <-; simpl;
        rewrite ?Hwr; lia.
    + unfold mtx_RUnlock in Hrel.
      destruct (readers (mtx st1)); injection Hrel as <-; simpl;
        destruct (writer (mtx st1)); lia.
    + injection Hrel as <-. destruct (writer (mtx st1)); simpl; lia.
  - apply lock_announce_Ret in Hann as [Hwr ->]. rewrite Hwr. simpl. lia.
  - apply lock_drain_Ret in Hdr as [_ ->]. destruct (writer (mtx st)); lia.
Qed.

(** Every pool can be run until all its calls are through. *)
Lemma pool_completes n : forall P,
  lock_inv P ->
  (pool_measure P <= n)%nat ->
  exists P', rtc pool_step P P' /\ waiting P' = [] /\ inside P' = [].
Proof.
  induction n as [|n IH]; intros P Hinv Hn.
  - exists P. split; [apply rtc_refl|]. unfold pool_measure in Hn.
    destruct (waiting P), (inside P); simpl in *; (done || lia).
  - assert (Hcase : (waiting P = [] /\ inside P = []) \/
                    (waiting P <> [] \/ inside P <> [])).
    { destruct (waiting P); [|by right; left].
      destruct (inside P); [by left|by right; right]. }
    destruct Hcase as [Hdone|Hsome].
    + exists P. by split; [apply rtc_refl|].
    + destruct (pool_progress P Hinv Hsome) as [P1 Hstep].
      pose proof (pool_step_measure P P1 Hstep) as Hlt.
      destruct (IH P1) as (P' & Hsteps & Hdone);
        [by eapply pool_step_inv|lia|].
      exists P'. split; [by eapply rtc_l|done].
Qed.

(** X5. The facade's locking cannot deadlock: however the calls of a
    program have been scheduled so far, as long as one is waiting or
    inside some call can take its next step, and the run can be continued
    until every call issued is through, with the lock free again. *)
Theorem calls_never_deadlock (st0 : State) (cs : list Call) (P : Pool) :
  mtx st0 = unlocked ->
  rtc pool_step (mkPool st0 cs [] []) P ->
  (waiting P <> [] \/ inside P <> [] -> exists P', pool_step P P') /\
  exists Pend,
    rtc pool_step P Pend /\
    waiting Pend = [] /\ inside Pend = [] /\
    finished Pend ≡ₚ cs /\
    mtx (shared Pend) = unlocked.
Proof.
  intros Hm Hsteps.
  pose proof (pool_reachable_inv st0 cs P Hm Hsteps) as Hinv.
  split; [by apply pool_progress|].
  destruct (pool_completes _ P Hinv (le_n _)) as (Pend & Hend & Hw & Hi).
  exists Pend. split; [done|]. split; [done|]. split; [done|]. split.
  - assert (Hall : rtc pool_step (mkPool st0 cs [] []) Pend)
      by (by eapply rtc_trans).
    pose proof (pool_steps_perm _ _ Hall) as Hperm.
    rewrite Hw, Hi in Hperm. simpl in Hperm. by rewrite app_nil_r in Hperm.
  - pose proof (pool_steps_inv _ _ Hend Hinv) as [Hr Hwr].
    rewrite Hi in Hr, Hwr. simpl in *.
    destruct (mtx (shared Pend)) as [wr rd]. simpl in *. subst rd.
    destruct wr; [|done]. rewrite Hw in Hwr. simpl in Hwr.
    by destruct Hwr as [[? _]|[_ ?]].
Qed.

End log.

(** ** The statements at concrete inputs *)

Lemma setters_fail_exactly_on_foreign_sinks_witness :
  SetLogLevel 3
    (mkState [] [] [] Stdout 0 unlocked (mkLogger (SinkOther (Counting 1)) 0))
  = Ret (Some unknown_logger_error)
      (mkState [] [] [] Stdout 0 unlocked
         (mkLogger (SinkOther (Counting 1)) 0)) /\
  SetOutput Stderr (@init_state CountingSink)
  = Ret None
      (mkState [mkLogSink "" 0 Stderr [] JSONEncoder] [] [] Stdout 0 unlocked
         (logr_New (SinkLog 0%nat))).
Proof.
  split.
  - destruct (setters_fail_exactly_on_foreign_sinks 3 Stderr
      (mkState [] [] [] Stdout 0 unlocked
         (mkLogger (SinkOther (Counting 1)) 0)) eq_refl)
      as (_ & _ & Herr & _).
    apply Herr. intros p. simpl. discriminate.
  - destruct (setters_fail_exactly_on_foreign_sinks 3 Stderr
      (@init_state CountingSink) eq_refl) as (_ & _ & _ & Hok).
    apply (Hok 0%nat (mkLogSink "" 0 Stdout [] JSONEncoder) eq_refl eq_refl).
Defined.

Lemma default_logger_before_setup_witness :
  exists st,
    run_all [CInfo "started" []; CSetLogLevel 2; CV 1]
      (@init_state CountingSink) = Some st /\
    logger st = logr_New (SinkLog 0%nat) /\
    forall c, exists r st', run c st = Ret r st'.
Proof.
  destruct (@default_logger_before_setup CountingSink _) as (_ & _ & Hcs).
  destruct (Hcs [CInfo "started" []; CSetLogLevel 2; CV 1] eq_refl)
    as (st & Hrun & Hl & _ & Hret & _).
  exists st. auto.
Defined.


Lemma readers_delegate_to_installed_logger_witness :
  Info "hello" [AStr "k"; AInt 1] (@init_state CountingSink)
  = Ret tt
      (set_written
         [(Stdout, JSONEncoder,
           InfoRecord 0 "" "hello" [] [AStr "k"; AInt 1])]
         init_state).
Proof.
  destruct (readers_delegate_to_installed_logger "hello" None
    [AStr "k"; AInt 1] "sub" (@init_state CountingSink) eq_refl)
    as (Hinfo & _).
  rewrite Hinfo. reflexivity.
Defined.

Lemma V_derives_without_mutation_witness :
  V 2 (@init_state CountingSink)
  = Ret (mkLogger (SinkLog 0%nat) 2) init_state.
Proof.
  destruct (V_derives_without_mutation 2 (@init_state CountingSink) eq_refl)
    as (HV & _).
  rewrite HV. reflexivity.
Defined.

Lemma Enabled_iff_level_le_threshold_witness :
  (Enabled (mkLogSink "" 1 Stdout [] JSONEncoder) 2 = true <-> 2 <= 1) /\
  LogSink_Enabled 0%nat 2
    (mkState [mkLogSink "" 1 Stdout [] JSONEncoder] [] [] Stdout 0 unlocked
       (logr_New (@SinkLog CountingSink 0%nat)))
  = Ret false
      (mkState [mkLogSink "" 1 Stdout [] JSONEncoder] [] [] Stdout 0 unlocked
         (logr_New (SinkLog 0%nat))).
Proof.
  exact (Enabled_iff_level_le_threshold
    (mkLogSink "" 1 Stdout [] JSONEncoder) 1 2 0%nat
    (mkState [mkLogSink "" 1 Stdout [] JSONEncoder] [] [] Stdout 0 unlocked
       (logr_New (@SinkLog CountingSink 0%nat)))
    eq_refl eq_refl).
Defined.

Lemma GetLogger_reads_back_UseLogger_witness :
  exists st',
    UseLogger (mkLogger (SinkOther (Counting 1)) 0) init_state
      = Ret tt st' /\
    GetLogger st' = Ret (mkLogger (SinkOther (Counting 1)) 0) st'.
Proof.
  destruct (GetLogger_reads_back_UseLogger
    (mkLogger (SinkOther (Counting 1)) 0) init_state eq_refl) as (Huse & _).
  exact Huse.
Defined.

Lemma defaults_survive_setters_witness :
  exists st' s,
    Init "app" []
      (mkState [mkLogSink "" 4 Stderr [] JSONEncoder] [] [] Stdout 0
         unlocked (logr_New (@SinkLog CountingSink 0%nat)))
      = Ret tt st' /\
    installed_sink st' = Some s /\ output s = Stdout /\ verbosity s = 0.
Proof.
  destruct (@defaults_survive_setters CountingSink _) as (_ & _ & Hseq).
  destruct (Hseq [CSetOutput Stderr; CSetLogLevel 4]
    (mkState [mkLogSink "" 4 Stderr [] JSONEncoder] [] [] Stdout 0
       unlocked (logr_New (SinkLog 0%nat)))
    eq_refl) as (_ & _ & _ & Hinit).
  exact (Hinit "app" []).
Defined.

(** C10 as stated fails: an option that sets the verbosity does not set
    an output, and the sink [InitWithOptions] then installs does not have
    verbosity 0. *)
Lemma verbosity_option_beats_default :
  Forall (keeps output) [WithLogLevel 3] /\
  run_all [] (@init_state CountingSink) = Some init_state /\
  ~ (exists st' s,
       InitWithOptions "app" [WithLogLevel 3] [] (@init_state CountingSink)
         = Ret tt st' /\
       installed_sink st' = Some s /\
       output s = Stdout /\ verbosity s = 0).
Proof.
  split; [|split].
  - constructor; [|constructor]. by intros s.
  - reflexivity.
  - intros (st' & s & Hinit & Hs & _ & Hv).
    rewrite InitWithOptions_lone in Hinit by reflexivity.
    injection Hinit as <-. cbv in Hs. injection Hs as <-.
    discriminate Hv.
Defined.

Lemma exclusive_calls_run_alone_witness :
  Forall (fun c' : @Call CountingSink => guard_of c' = Unguarded)
    ([CGetLogger] ++ []).
Proof.
  apply (exclusive_calls_run_alone (@init_state CountingSink)
           [CSetLogLevel 1; CGetLogger]
           (mkPool (set_mtx (mkRWMutex true 0) init_state) []
              [CGetLogger; CSetLogLevel 1] [])
           [CGetLogger] (CSetLogLevel 1) [] eq_refl).
  - eapply rtc_l.
    { eapply (pool_enter init_state _ (CSetLogLevel 1) []
                [CGetLogger] [] []). reflexivity. }
    eapply rtc_l; [|apply rtc_refl].
    eapply (pool_enter _ _ CGetLogger [] [] [CSetLogLevel 1] []).
    reflexivity.
  - reflexivity.
  - reflexivity.
Defined.

Lemma readers_run_together_witness :
  exists st',
    rtc pool_step
      (mkPool (@init_state CountingSink) [CInfo "a" []; CV 1] [] [])
      (mkPool st' [] [CV 1; CInfo "a" []] []) /\
    mtx st' = mkRWMutex false 2.
Proof.
  exact (readers_run_together (CInfo "a" []) (CV 1)
           (@init_state CountingSink) eq_refl eq_refl eq_refl).
Defined.

Lemma calls_never_deadlock_witness :
  exists Pend,
    rtc pool_step
      (mkPool (@init_state CountingSink)
         [CSetOutput Stderr; CInfo "a" []] [] []) Pend /\
    waiting Pend = [] /\ inside Pend = [] /\
    finished Pend ≡ₚ [CSetOutput Stderr; CInfo "a" []] /\
    mtx (shared Pend) = unlocked.
Proof.
  destruct (calls_never_deadlock (@init_state CountingSink)
    [CSetOutput Stderr; CInfo "a" []]
    (mkPool init_state [CSetOutput Stderr; CInfo "a" []] [] [])
    eq_refl (rtc_refl _ _)) as [_ Hend].
  exact Hend.
Defined.

Lemma only_installing_calls_change_logger_witness :
  GetLogger
    (mkState [mkLogSink "" 2 Stdout [] JSONEncoder]
       [(Stdout, JSONEncoder, InfoRecord 0 "" "m" [] [])] [] Stdout 0
       unlocked (logr_New (@SinkLog CountingSink 0%nat)))
  = Ret (logr_New (SinkLog 0%nat))
      (mkState [mkLogSink "" 2 Stdout [] JSONEncoder]
         [(Stdout, JSONEncoder, InfoRecord 0 "" "m" [] [])] [] Stdout 0
         unlocked (logr_New (SinkLog 0%nat))).
Proof.
  destruct (only_installing_calls_change_logger
    [CSetLogLevel 2; CInfo "m" []] (@init_state CountingSink)
    (mkState [mkLogSink "" 2 Stdout [] JSONEncoder]
       [(Stdout, JSONEncoder, InfoRecord 0 "" "m" [] [])] [] Stdout 0
       unlocked (logr_New (SinkLog 0%nat)))
    eq_refl eq_refl) as [_ Hget].
  exact Hget.
Defined.

Lemma locked_calls_do_not_nest_witness :
  bind mtx_Lock (fun _ => defer mtx_Unlock (run (CInfo "m" [])))
    (@init_state CountingSink) = Blocked /\
  bind mtx_RLock (fun _ => defer mtx_RUnlock (run (CSetLogLevel 1)))
    (@init_state CountingSink) = Blocked.
Proof.
  destruct (locked_calls_do_not_nest (CInfo "m" [])
    (logr_New (SinkLog 0%nat)) (@init_state CountingSink)) as (Hw & _).
  destruct (locked_calls_do_not_nest (CSetLogLevel 1)
    (logr_New (SinkLog 0%nat)) (@init_state CountingSink)) as (_ & Hr & _).
  split.
  - apply Hw. discriminate.
  - apply Hr. reflexivity.
Defined.

Lemma setters_after_InitWithOptions_witness :
  exists st1 built,
    InitWithOptions "app" [WithLogLevel 1] []
      (mkState [] [] [] Stdout 0 unlocked
         (mkLogger (SinkOther (Counting 1)) 0)) = Ret tt st1 /\
    installed_sink st1 = Some built /\
    SetLogLevel 3 st1 =
      Ret None (set_heap ([] ++ [set_verbosity 3 built]) st1) /\
    SetOutput Stderr st1 =
      Ret None (set_heap ([] ++ [set_output Stderr built]) st1).
Proof.
  exact (setters_after_InitWithOptions "app" [WithLogLevel 1] [] 3 Stderr
    (mkState [] [] [] Stdout 0 unlocked
       (mkLogger (SinkOther (Counting 1)) 0)) eq_refl).
Defined.


Lemma SetLogLevel_reaches_handed_out_loggers_witness :
  exists l st',
    V 1 (@init_state CountingSink) = Ret l init_state /\
    GetSink l = SinkLog 0%nat /\
    SetLogLevel 2 init_state = Ret None st' /\
    heap st' !! 0%nat = Some (mkLogSink "" 2 Stdout [] JSONEncoder) /\
    Logger_Enabled l st' = Ret (level l <=? 2) st' /\
    Logger_Enabled (logger init_state) st'
      = Ret (level (logger (@init_state CountingSink)) <=? 2) st'.
Proof.
  exact (SetLogLevel_reaches_handed_out_loggers 1 2
    (@init_state CountingSink) 0%nat
    (mkLogSink "" 0 Stdout [] JSONEncoder) eq_refl eq_refl eq_refl).
Defined.

Lemma setters_compose_witness :
  bind (SetLogLevel 1) (fun _ => SetOutput Stderr) (@init_state CountingSink)
  = bind (SetOutput Stderr) (fun _ => SetLogLevel 1) init_state /\
  bind (SetLogLevel 1) (fun _ => SetLogLevel 2) (@init_state CountingSink)
  = SetLogLevel 2 init_state.
Proof.
  destruct (setters_compose 1 2 Stderr Stdout (@init_state CountingSink)
    eq_refl) as (Htwice & _ & Hswap).
  split; [exact Hswap|exact Htwice].
Defined.

Lemma queued_writer_holds_readers_back_witness :
  exists st',
    rtc pool_step
      (mkPool (@init_state CountingSink)
         [CInfo "a" []; CSetLogLevel 1; CV 2] [] [])
      (mkPool st' [CSetLogLevel 1; CV 2] [CInfo "a" []] []) /\
    mtx st' = mkRWMutex true 1 /\
    run (CV 2) st' = Blocked.
Proof.
  destruct (queued_writer_holds_readers_back (CInfo "a" []) (CSetLogLevel 1)
    (CV 2) (@init_state CountingSink) eq_refl eq_refl eq_refl eq_refl)
    as [Hqueued _].
  exact Hqueued.
Defined.

(** C1 as stated fails on a nil *LogSink: [UseLogger] installs the logger
    over it, its sink is a *LogSink, and both setters panic instead of
    returning nil. *)
Lemma setters_panic_on_nil_LogSink :
  UseLogger (mkLogger (SinkLog 7%nat) 0) (@init_state CountingSink)
  = Ret tt
      (mkState [mkLogSink "" 0 Stdout [] JSONEncoder] [] [] Stdout 0 unlocked
         (mkLogger (SinkLog 7%nat) 0)) /\
  GetSink
    (logger
       (mkState [mkLogSink "" 0 Stdout [] JSONEncoder] [] [] Stdout 0
          unlocked (mkLogger (@SinkLog CountingSink 7%nat) 0)))
  = SinkLog 7%nat /\
  ~ (exists st',
       SetLogLevel 3
         (mkState [mkLogSink "" 0 Stdout [] JSONEncoder] [] [] Stdout 0
            unlocked (mkLogger (@SinkLog CountingSink 7%nat) 0))
       = Ret None st') /\
  ~ (exists st',
       SetOutput Stderr
         (mkState [mkLogSink "" 0 Stdout [] JSONEncoder] [] [] Stdout 0
            unlocked (mkLogger (@SinkLog CountingSink 7%nat) 0))
       = Ret None st') /\
  SetLogLevel 3
    (mkState [mkLogSink "" 0 Stdout [] JSONEncoder] [] [] Stdout 0
       unlocked (mkLogger (@SinkLog CountingSink 7%nat) 0))
  = Panic
      (mkState [mkLogSink "" 0 Stdout [] JSONEncoder] [] [] Stdout 0
         unlocked (mkLogger (SinkLog 7%nat) 0)).
Proof.
  split; [reflexivity|]. split; [reflexivity|].
  split; [|split].
  - intros (st' & Hret). rewrite SetLogLevel_lone in Hret by reflexivity.
    discriminate Hret.
  - intros (st' & Hret). rewrite SetOutput_lone in Hret by reflexivity.
    discriminate Hret.
  - by rewrite SetLogLevel_lone.
Defined.
